(** * Locked-In: bounded lock-free ring-buffer queues (SPSC, MPSC, SPMC)

    A shallow embedding of [include/lockedin/spsc_queue.hpp],
    [include/lockedin/mpsc_queue.hpp] and [include/lockedin/spmc_queue.hpp],
    and of the single-threaded callers in the benchmark and test programs,
    followed by the properties the specification states about the queues
    and further properties read off the code.

    Conventions.
    - [size_t] is a 64-bit unsigned integer, [uint32_t] a 32-bit one; both
      are carried as [Z] with the wrap-around written out ([Word.wrap],
      [Word.wrap32]).
    - A heap array [T[]] is a [list T]; [std::make_unique<T[]>(n)]
      value-initialises its [n] slots, which is what [repeat dflt n] does.
      The allocation itself can fail, and in all three constructors it runs
      in the member-initialiser list, before the capacity is checked:
      [Alloc.new_array] gives its outcome on a free store, [construct] is
      the constructor call as a whole, and [make] is what the constructor
      does once the array exists.
    - An atomic load or store is a read or write of a record field: every
      operation is executed as one sequential step, and a history is a list
      of such steps.  Where the order of the stores inside one operation
      matters (the SPMC producer), the stores are listed one by one.
    - [bool pop(T& out)] is embedded as a function to [option T]: [None] is
      the [false] return, which leaves [out] untouched. *)

From Stdlib Require Import ZArith List Lia Bool.
Import ListNotations.
Local Open Scope Z_scope.

(* ================================================================== *)
(** * Machine integers                                                  *)
(* ================================================================== *)

Module Word.

(** [sizeof(size_t) * CHAR_BIT] *)
Definition size_bits : Z := 64.

(** Arithmetic on [size_t] is modulo [2^64]. *)
Definition wrap (x : Z) : Z := x mod 2 ^ size_bits.

(** Arithmetic on [uint32_t] is modulo [2^32]. *)
Definition wrap32 (x : Z) : Z := x mod 2 ^ 32.

(** [static_cast<std::intptr_t>(x)] for a [size_t] [x]. *)
Definition to_signed (x : Z) : Z :=
  if x <? 2 ^ (size_bits - 1) then x else x - 2 ^ size_bits.

(** [static_cast<intptr_t>(a) - static_cast<intptr_t>(b)], two's complement:
    the difference is brought back into the range of [intptr_t]. *)
Definition sdiff (a b : Z) : Z :=
  to_signed (wrap (to_signed a - to_signed b)).

(** [static_cast<uint32_t>(b)] for a [bool] [b]. *)
Definition of_bool (b : bool) : Z := if b then 1 else 0.

End Word.

(* ================================================================== *)
(** * Arrays                                                            *)
(* ================================================================== *)

(** [a[i] = x]: the slot [i] of [a] is overwritten; the array keeps its
    length.  (An index past the end is undefined behaviour in the source;
    here it leaves the list as it is.) *)
Fixpoint upd {A : Type} (l : list A) (i : nat) (x : A) : list A :=
  match l, i with
  | [], _ => []
  | _ :: t, O => x :: t
  | h :: t, S i' => h :: upd t i' x
  end.

(** [a[i]] with a [size_t] index. *)
Definition at_ {A : Type} (d : A) (l : list A) (i : Z) : A := nth (Z.to_nat i) l d.

(** [a[i] = x] with a [size_t] index. *)
Definition set_ {A : Type} (l : list A) (i : Z) (x : A) : list A := upd l (Z.to_nat i) x.

(* ================================================================== *)
(** * Capacity checks and construction results                          *)
(* ================================================================== *)

Module Capacity.

(** Number of set bits among the [n] lowest bits of [x]. *)
Fixpoint count_bits (n : nat) (x : Z) : Z :=
  match n with
  | O => 0
  | S n' => count_bits n' x + Z.b2z (Z.testbit x (Z.of_nat n'))
  end.

(** [std::bitset<sizeof(size_t) * CHAR_BIT>(capacity).count()] *)
Definition popcount (x : Z) : Z := count_bits (Z.to_nat Word.size_bits) x.

(** The guard of [SPSCQ::SPSCQ] and [SPMCQ::SPMCQ]:
    [capacity < 2 || bitset(capacity).count() != 1]. *)
Definition rejected_by_bitset (capacity : Z) : bool :=
  (capacity <? 2) || negb (popcount capacity =? 1).

(** The guard of [MPSCQ::MPSCQ]:
    [capacity_ < 2 || (capacity_ & (capacity_ - 1)) != 0]. *)
Definition rejected_by_mask (capacity : Z) : bool :=
  (capacity <? 2) || negb (Z.land capacity (Word.wrap (capacity - 1)) =? 0).

(** Once its array is allocated, a constructor either returns the object or
    throws [std::logic_error]. *)
Inductive construction (Q : Type) : Type :=
| Constructed (q : Q)
| LogicError.
Arguments Constructed {Q} q.
Arguments LogicError {Q}.

(** What the documentation asks of a capacity: a power of two, at least 2.
    ([is_pow2] alone admits 1.) *)
Definition is_pow2 (c : Z) : Prop := exists k : Z, 0 <= k /\ c = 2 ^ k.

(** A capacity that fits [size_t] and passes the guards. *)
Definition good (c : Z) : Prop := exists k : Z, 1 <= k <= 63 /\ c = 2 ^ k.

End Capacity.

(* ================================================================== *)
(** * Allocation of the backing array                                   *)
(* ================================================================== *)

Module Alloc.

(** The free store as an array new-expression meets it: [limit] is the
    size in bytes of the largest array the implementation creates (it is
    implementation-defined and fits [size_t]; GCC has [PTRDIFF_MAX]), and
    [free] is the number of bytes [operator new[]] can still hand out. *)
Record heap : Type := mkHeap {
  limit : Z;
  free : Z
}.

(** What a constructor call can throw. *)
Inductive exception : Type :=
| bad_array_new_length
| bad_alloc
| logic_error.

(** [std::make_unique<E[]>(n)], that is [new E[n]()], up to the point
    where the storage exists; [elem_size] is [sizeof(E)].  The size in
    bytes is the mathematical product: when it is past the limit the
    expression throws [std::bad_array_new_length] without calling the
    allocation function, and when the allocation function cannot provide
    the bytes it throws [std::bad_alloc].  [None] is the normal return. *)
Definition new_array (h : heap) (elem_size n : Z) : option exception :=
  if limit h <? n * elem_size then Some bad_array_new_length
  else if free h <? n * elem_size then Some bad_alloc
  else None.

(** A constructor call either returns the object or throws. *)
Inductive constructed (Q : Type) : Type :=
| Returned (q : Q)
| Threw (e : exception).
Arguments Returned {Q} q.
Arguments Threw {Q} e.

(** How a constructor call ends when its array has been allocated. *)
Definition of_body {Q : Type} (body : Capacity.construction Q) : constructed Q :=
  match body with
  | Capacity.Constructed q => Returned q
  | Capacity.LogicError => Threw logic_error
  end.

End Alloc.

(* ================================================================== *)
(** * Histories of a queue used by one thread at a time                 *)
(* ================================================================== *)

Module History.
Section Events.
Variable T : Type.

(** A call made on the queue. *)
Inductive op : Type :=
| Push (v : T)
| Pop.

(** The call together with what it returned. *)
Inductive event : Type :=
| Pushed (v : T) (ok : bool)
| Popped (r : option T).

Definition accepted_of (e : event) : list T :=
  match e with Pushed v true => [v] | _ => [] end.

Definition popped_of (e : event) : list T :=
  match e with Popped (Some v) => [v] | _ => [] end.

(** The values whose push returned [true], in order. *)
Definition accepted (es : list event) : list T := flat_map accepted_of es.

(** The values handed out by the pops that returned [true], in order. *)
Definition popped (es : list event) : list T := flat_map popped_of es.

End Events.

Arguments Push {T}.
Arguments Pop {T}.
Arguments Pushed {T}.
Arguments Popped {T}.
Arguments accepted {T}.
Arguments popped {T}.

End History.

(* ================================================================== *)
(** * SPSC queue  ([spsc_queue.hpp])                                    *)
(* ================================================================== *)

Module SPSC.
Section Model.
Variable T : Type.
Variable dflt : T.

Record SPSCQ : Type := mkSPSCQ {
  capacity_ : Z;
  items_ : list T;
  readIdx_ : Z;     (* consumer cursor *)
  writeIdx_ : Z     (* producer cursor *)
}.

(** [SPSCQ::SPSCQ(size_t capacity)] from the point where
    [std::make_unique<T[]>(capacity)] has returned: the members are
    initialised, then the guard in the body throws. *)
Definition make (capacity : Z) : Capacity.construction SPSCQ :=
  let q := {| capacity_ := capacity;
              items_ := repeat dflt (Z.to_nat capacity);
              readIdx_ := 0;
              writeIdx_ := 0 |} in
  if Capacity.rejected_by_bitset capacity then Capacity.LogicError
  else Capacity.Constructed q.

(** [SPSCQ::SPSCQ(size_t capacity)], the whole call:
    [items_{std::make_unique<T[]>(capacity)}] is in the member-initialiser
    list, so the array is allocated, or the allocation throws, before the
    guard is reached.  [elem_size] is [sizeof(T)]. *)
Definition construct (h : Alloc.heap) (elem_size capacity : Z)
  : Alloc.constructed SPSCQ :=
  match Alloc.new_array h elem_size capacity with
  | Some e => Alloc.Threw e
  | None => Alloc.of_body (make capacity)
  end.

(** [bool SPSCQ::push(const T&)] (and the [T&&] overload, which differs
    only in moving from its argument). *)
Definition push (item : T) (q : SPSCQ) : bool * SPSCQ :=
  let writeIdx := writeIdx_ q in
  let readIdx := readIdx_ q in
  let nextWriteIdx := Z.land (Word.wrap (writeIdx + 1)) (Word.wrap (capacity_ q - 1)) in
  if nextWriteIdx =? readIdx then (false, q)
  else (true, {| capacity_ := capacity_ q;
                 items_ := set_ (items_ q) writeIdx item;
                 readIdx_ := readIdx_ q;
                 writeIdx_ := nextWriteIdx |}).

(** [bool SPSCQ::pop(T&)].  The slot is read by [std::move]; for the
    trivially copyable payloads the queue is used with it keeps its
    value. *)
Definition pop (q : SPSCQ) : option T * SPSCQ :=
  let readIdx := readIdx_ q in
  let writeIdx := writeIdx_ q in
  if readIdx =? writeIdx then (None, q)
  else
    let item := at_ dflt (items_ q) readIdx in
    let nextReadIdx := Z.land (Word.wrap (readIdx + 1)) (Word.wrap (capacity_ q - 1)) in
    (Some item, {| capacity_ := capacity_ q;
                   items_ := items_ q;
                   readIdx_ := nextReadIdx;
                   writeIdx_ := writeIdx_ q |}).

(** [bool SPSCQ::full() const] *)
Definition full (q : SPSCQ) : bool :=
  let writeIdx := writeIdx_ q in
  let readIdx := readIdx_ q in
  let nextWriteIdx := Z.land (Word.wrap (writeIdx + 1)) (Word.wrap (capacity_ q - 1)) in
  nextWriteIdx =? readIdx.

(** [bool SPSCQ::empty() const] *)
Definition empty (q : SPSCQ) : bool := readIdx_ q =? writeIdx_ q.

(** [size_t SPSCQ::size() const] *)
Definition size (q : SPSCQ) : Z :=
  Z.land (Word.wrap (writeIdx_ q - readIdx_ q)) (Word.wrap (capacity_ q - 1)).

(** ** Histories *)

Definition step (o : History.op T) (q : SPSCQ) : History.event T * SPSCQ :=
  match o with
  | History.Push v => let (ok, q') := push v q in (History.Pushed v ok, q')
  | History.Pop => let (r, q') := pop q in (History.Popped r, q')
  end.

Fixpoint run (ops : list (History.op T)) (q : SPSCQ) : list (History.event T) * SPSCQ :=
  match ops with
  | [] => ([], q)
  | o :: ops' =>
      let (e, q') := step o q in
      let (es, q'') := run ops' q' in
      (e :: es, q'')
  end.

(** ** Representation invariant

    [acc] are the values accepted so far and [pop] those popped so far:
    the cursors are their lengths modulo the capacity, and the slots
    between them hold the values not yet popped. *)
Record Inv (c : Z) (q : SPSCQ) (acc pop : list T) : Prop := {
  inv_cap : capacity_ q = c;
  inv_len : Z.of_nat (length (items_ q)) = c;
  inv_read : readIdx_ q = Z.of_nat (length pop) mod c;
  inv_write : writeIdx_ q = Z.of_nat (length acc) mod c;
  inv_bound : Z.of_nat (length pop) <= Z.of_nat (length acc) <= Z.of_nat (length pop) + c - 1;
  inv_prefix : pop = firstn (length pop) acc;
  inv_slots : forall j : nat,
      (length pop <= j < length acc)%nat ->
      at_ dflt (items_ q) (Z.of_nat j mod c) = nth j acc dflt
}.

End Model.

Arguments mkSPSCQ {T}.
Arguments capacity_ {T}.
Arguments items_ {T}.
Arguments readIdx_ {T}.
Arguments writeIdx_ {T}.
Arguments make {T}.
Arguments construct {T}.
Arguments push {T}.
Arguments pop {T}.
Arguments full {T}.
Arguments empty {T}.
Arguments size {T}.
Arguments step {T}.
Arguments run {T}.
Arguments Inv {T}.
Arguments inv_bound {T dflt c q acc pop}.
Arguments inv_prefix {T dflt c q acc pop}.

End SPSC.

(* ================================================================== *)
(** * MPSC queue  ([mpsc_queue.hpp])                                    *)
(* ================================================================== *)

Module MPSC.
Section Model.
Variable T : Type.
Variable dflt : T.

Record Cell : Type := mkCell {
  sequence : Z;
  value : T
}.

Record MPSCQ : Type := mkMPSCQ {
  capacity_ : Z;
  mask_ : Z;
  buffer_ : list Cell;
  head_ : Z;
  tail_ : Z
}.

(** A value-initialised cell. *)
Definition cell0 : Cell := {| sequence := 0; value := dflt |}.

(** [buffer_[i].sequence.store(s)] *)
Definition store_sequence (b : list Cell) (i s : Z) : list Cell :=
  set_ b i {| sequence := s; value := value (at_ cell0 b i) |}.

(** [for (i = 0; i < capacity_; ++i) buffer_[i].sequence.store(i)] *)
Definition init_sequences (n : nat) (b : list Cell) : list Cell :=
  fold_left (fun b i => store_sequence b (Z.of_nat i) (Z.of_nat i)) (seq 0 n) b.

(** [MPSCQ::MPSCQ(std::size_t capacity)] from the point where
    [std::make_unique<Cell[]>(capacity_)] has returned. *)
Definition make (capacity : Z) : Capacity.construction MPSCQ :=
  let buffer := repeat cell0 (Z.to_nat capacity) in
  if Capacity.rejected_by_mask capacity then Capacity.LogicError
  else Capacity.Constructed
         {| capacity_ := capacity;
            mask_ := Word.wrap (capacity - 1);
            buffer_ := init_sequences (Z.to_nat capacity) buffer;
            head_ := 0;
            tail_ := 0 |}.

(** [MPSCQ::MPSCQ(std::size_t capacity)], the whole call:
    [buffer_{std::make_unique<Cell[]>(capacity_)}] is in the
    member-initialiser list, ahead of the guard.  [elem_size] is
    [sizeof(Cell)]. *)
Definition construct (h : Alloc.heap) (elem_size capacity : Z)
  : Alloc.constructed MPSCQ :=
  match Alloc.new_array h elem_size capacity with
  | Some e => Alloc.Threw e
  | None => Alloc.of_body (make capacity)
  end.

Definition with_head (q : MPSCQ) (h : Z) : MPSCQ :=
  {| capacity_ := capacity_ q; mask_ := mask_ q; buffer_ := buffer_ q;
     head_ := h; tail_ := tail_ q |}.

(** How the claim loop of [emplace_impl] ends: with the cell at [pos]
    claimed ([head_] advanced past it), or with [return false]. *)
Inductive claim : Type :=
| Claimed (pos : Z) (q : MPSCQ)
| QueueFull.

(** The [for (;;)] loop of [emplace_impl], with [fuel] bounding the number
    of iterations.  [compare_exchange_weak(pos, pos + 1)] succeeds when
    [head_] still holds [pos]; otherwise it loads the current [head_] into
    [pos] and the loop goes round again.  (A spurious failure of the weak
    exchange only repeats the iteration; it is not modelled.) *)
Fixpoint claim_loop (fuel : nat) (q : MPSCQ) (pos : Z) : option claim :=
  match fuel with
  | O => None
  | S fuel' =>
      let cell := at_ cell0 (buffer_ q) (Z.land pos (mask_ q)) in
      let seq := sequence cell in
      let diff := Word.sdiff seq pos in
      if diff =? 0 then
        if head_ q =? pos then Some (Claimed pos (with_head q (Word.wrap (pos + 1))))
        else claim_loop fuel' q (head_ q)
      else if diff <? 0 then Some QueueFull
      else claim_loop fuel' q (head_ q)
  end.

(** [bool MPSCQ::emplace_impl(U&& value)]; [None] when the fuel runs out. *)
Definition emplace_impl (fuel : nat) (v : T) (q : MPSCQ) : option (bool * MPSCQ) :=
  match claim_loop fuel q (head_ q) with
  | None => None
  | Some QueueFull => Some (false, q)
  | Some (Claimed pos q') =>
      let i := Z.land pos (mask_ q') in
      Some (true,
            {| capacity_ := capacity_ q';
               mask_ := mask_ q';
               buffer_ := set_ (buffer_ q') i
                            {| sequence := Word.wrap (pos + 1); value := v |};
               head_ := head_ q';
               tail_ := tail_ q' |})
  end.

(** [bool MPSCQ::pop_impl(T& out)] *)
Definition pop_impl (q : MPSCQ) : option T * MPSCQ :=
  let pos := tail_ q in
  let i := Z.land pos (mask_ q) in
  let cell := at_ cell0 (buffer_ q) i in
  let seq := sequence cell in
  let diff := Word.sdiff seq (Word.wrap (pos + 1)) in
  if diff <? 0 then (None, q)
  else
    (Some (value cell),
     {| capacity_ := capacity_ q;
        mask_ := mask_ q;
        buffer_ := set_ (buffer_ q) i
                     {| sequence := Word.wrap (pos + capacity_ q);
                        value := value cell |};
        head_ := head_ q;
        tail_ := Word.wrap (pos + 1) |}).

(** [bool MPSCQ::push(const T&)] and [bool MPSCQ::push(T&&)] *)
Definition push (fuel : nat) (item : T) (q : MPSCQ) : option (bool * MPSCQ) :=
  emplace_impl fuel item q.

(** [bool MPSCQ::pop(T&)] *)
Definition pop (q : MPSCQ) : option T * MPSCQ := pop_impl q.

(** [std::size_t MPSCQ::size() const] *)
Definition size (q : MPSCQ) : Z := Word.wrap (head_ q - tail_ q).

(** [bool MPSCQ::empty() const] *)
Definition empty (q : MPSCQ) : bool := size q =? 0.

(** [bool MPSCQ::full() const] *)
Definition full (q : MPSCQ) : bool := capacity_ q <=? size q.

(** ** Histories *)

Definition step (fuel : nat) (o : History.op T) (q : MPSCQ)
  : option (History.event T * MPSCQ) :=
  match o with
  | History.Push v =>
      match push fuel v q with
      | Some (ok, q') => Some (History.Pushed v ok, q')
      | None => None
      end
  | History.Pop => let (r, q') := pop q in Some (History.Popped r, q')
  end.

Fixpoint run (fuel : nat) (ops : list (History.op T)) (q : MPSCQ)
  : option (list (History.event T) * MPSCQ) :=
  match ops with
  | [] => Some ([], q)
  | o :: ops' =>
      match step fuel o q with
      | None => None
      | Some (e, q') =>
          match run fuel ops' q' with
          | None => None
          | Some (es, q'') => Some (e :: es, q'')
          end
      end
  end.

(** ** Representation invariant

    [acc] are the values accepted so far and [pop] those popped so far.
    The cursors count them modulo [2^64]; a cell between the cursors
    carries its value and the sequence number that makes it readable, a
    cell ahead of [head_] the one that makes it writable. *)
Record Inv (c : Z) (q : MPSCQ) (acc pop : list T) : Prop := {
  inv_cap : capacity_ q = c;
  inv_mask : mask_ q = Word.wrap (c - 1);
  inv_len : Z.of_nat (length (buffer_ q)) = c;
  inv_head : head_ q = Word.wrap (Z.of_nat (length acc));
  inv_tail : tail_ q = Word.wrap (Z.of_nat (length pop));
  inv_bound : Z.of_nat (length pop) <= Z.of_nat (length acc) <= Z.of_nat (length pop) + c;
  inv_prefix : pop = firstn (length pop) acc;
  inv_taken : forall j : Z,
      Z.of_nat (length pop) <= j < Z.of_nat (length acc) ->
      at_ cell0 (buffer_ q) (j mod c) =
      {| sequence := Word.wrap (j + 1); value := nth (Z.to_nat j) acc dflt |};
  inv_free : forall j : Z,
      Z.of_nat (length acc) <= j < Z.of_nat (length pop) + c ->
      sequence (at_ cell0 (buffer_ q) (j mod c)) = Word.wrap j
}.

End Model.

Arguments mkCell {T}.
Arguments sequence {T}.
Arguments value {T}.
Arguments mkMPSCQ {T}.
Arguments capacity_ {T}.
Arguments mask_ {T}.
Arguments buffer_ {T}.
Arguments head_ {T}.
Arguments tail_ {T}.
Arguments make {T}.
Arguments construct {T}.
Arguments push {T}.
Arguments pop {T}.
Arguments emplace_impl {T}.
Arguments pop_impl {T}.
Arguments claim_loop {T}.
Arguments size {T}.
Arguments empty {T}.
Arguments full {T}.
Arguments step {T}.
Arguments run {T}.
Arguments Inv {T}.
Arguments inv_bound {T dflt c q acc pop}.
Arguments inv_prefix {T dflt c q acc pop}.

End MPSC.

(* ================================================================== *)
(** * SPMC queue  ([spmc_queue.hpp])                                    *)
(* ================================================================== *)

(** ** The shared ring: [SPMCQEntry] and [SPMCQ] *)

Module SPMC.
Section Model.
Variable T : Type.
Variable dflt : T.

Record SPMCQEntry : Type := mkEntry {
  data : T;
  version : Z      (* uint32_t, [version{0}] *)
}.

Record SPMCQ : Type := mkSPMCQ {
  capacity_ : Z;
  items_ : list SPMCQEntry;
  mReadIndex : Z;    (* the cursor the consumers load *)
  mWriteIndex : Z
}.

(** A value-initialised entry. *)
Definition entry0 : SPMCQEntry := {| data := dflt; version := 0 |}.

(** [SPMCQ::SPMCQ(size_t capacity)] from the point where
    [std::make_unique<elem[]>(capacity)] has returned. *)
Definition make (capacity : Z) : Capacity.construction SPMCQ :=
  let q := {| capacity_ := capacity;
              items_ := repeat entry0 (Z.to_nat capacity);
              mReadIndex := 0;
              mWriteIndex := 0 |} in
  if Capacity.rejected_by_bitset capacity then Capacity.LogicError
  else Capacity.Constructed q.

(** [SPMCQ::SPMCQ(size_t capacity)], the whole call:
    [items_{std::make_unique<elem[]>(capacity)}] is in the
    member-initialiser list, ahead of the guard.  [elem_size] is
    [sizeof(SPMCQEntry<T>)]. *)
Definition construct (h : Alloc.heap) (elem_size capacity : Z)
  : Alloc.constructed SPMCQ :=
  match Alloc.new_array h elem_size capacity with
  | Some e => Alloc.Threw e
  | None => Alloc.of_body (make capacity)
  end.

(** [bool SPMCQ::full() const noexcept] *)
Definition full (q : SPMCQ) : bool :=
  let writeIdx := mWriteIndex q in
  let readIdx := mReadIndex q in
  let nextWriteIdx := Z.land (Word.wrap (writeIdx + 1)) (Word.wrap (capacity_ q - 1)) in
  nextWriteIdx =? readIdx.

(** [bool SPMCQ::empty() const noexcept] *)
Definition empty (q : SPMCQ) : bool := mReadIndex q =? mWriteIndex q.

(** [size_t SPMCQ::size() const noexcept] *)
Definition size (q : SPMCQ) : Z :=
  Z.land (Word.wrap (mWriteIndex q - mReadIndex q)) (Word.wrap (capacity_ q - 1)).

(** The stores a producer performs on the shared ring, one constructor per
    kind of store. *)
Inductive store : Type :=
| StoreWriteIndex (i : Z)                     (* [mWriteIndex.store(i, release)] *)
| StoreItem (idx : Z) (e : SPMCQEntry)        (* [items_[idx] = e] *)
| StoreReadIndex (i : Z).                     (* [mReadIndex.store(i, release)] *)

Definition apply_store (q : SPMCQ) (s : store) : SPMCQ :=
  match s with
  | StoreWriteIndex i =>
      {| capacity_ := capacity_ q; items_ := items_ q;
         mReadIndex := mReadIndex q; mWriteIndex := i |}
  | StoreItem idx e =>
      {| capacity_ := capacity_ q; items_ := set_ (items_ q) idx e;
         mReadIndex := mReadIndex q; mWriteIndex := mWriteIndex q |}
  | StoreReadIndex i =>
      {| capacity_ := capacity_ q; items_ := items_ q;
         mReadIndex := i; mWriteIndex := mWriteIndex q |}
  end.

Definition apply_stores (q : SPMCQ) (ss : list store) : SPMCQ :=
  fold_left apply_store ss q.

Definition is_publish (s : store) : bool :=
  match s with StoreReadIndex _ => true | _ => false end.

End Model.

Arguments mkEntry {T}.
Arguments data {T}.
Arguments version {T}.
Arguments mkSPMCQ {T}.
Arguments capacity_ {T}.
Arguments items_ {T}.
Arguments mReadIndex {T}.
Arguments mWriteIndex {T}.
Arguments entry0 {T}.
Arguments make {T}.
Arguments construct {T}.
Arguments full {T}.
Arguments empty {T}.
Arguments size {T}.
Arguments StoreWriteIndex {T}.
Arguments StoreItem {T}.
Arguments StoreReadIndex {T}.
Arguments apply_store {T}.
Arguments apply_stores {T}.
Arguments is_publish {T}.

End SPMC.

(** ** The producer handle: [SPMCProducer] *)

Module SPMCProducer.

(** The handle's own members; [queue_] is the ring passed to [push]. *)
Record t : Type := mk {
  capacity_ : Z;
  lWriteIdx : Z;
  lVersion : Z       (* uint32_t *)
}.

(** [SPMCQ::getProducer()], that is [SPMCProducer(SPMCQ<T>& queue)] with the
    default member initialisers [lWriteIdx{0}] and [lVersion{0}]. *)
Definition getProducer {T : Type} (queue : SPMC.SPMCQ T) : t :=
  {| capacity_ := SPMC.capacity_ queue; lWriteIdx := 0; lVersion := 0 |}.

(** [(lWriteIdx + 1) & (capacity_ - 1)] *)
Definition nxtWriteIdx (p : t) : Z :=
  Z.land (Word.wrap (lWriteIdx p + 1)) (Word.wrap (capacity_ p - 1)).

(** [lVersion + static_cast<uint32_t>(nxtWriteIdx_nowrap == capacity_)] *)
Definition nxtVersion (p : t) : Z :=
  Word.wrap32 (lVersion p + Word.of_bool (Word.wrap (lWriteIdx p + 1) =? capacity_ p)).

(** The stores of one [push], in program order. *)
Definition stores {T : Type} (item : T) (p : t) : list (SPMC.store T) :=
  [ SPMC.StoreWriteIndex (nxtWriteIdx p);
    SPMC.StoreItem (lWriteIdx p) {| SPMC.data := item; SPMC.version := lVersion p |};
    SPMC.StoreReadIndex (nxtWriteIdx p) ].

(** [bool SPMCProducer::push(const T&)] (and the [T&&] overload). *)
Definition push {T : Type} (item : T) (queue : SPMC.SPMCQ T) (p : t)
  : bool * SPMC.SPMCQ T * t :=
  (true,
   SPMC.apply_stores queue (stores item p),
   {| capacity_ := capacity_ p;
      lWriteIdx := nxtWriteIdx p;
      lVersion := nxtVersion p |}).

(** Pushing a list of values, one after the other. *)
Fixpoint push_all {T : Type} (items : list T) (queue : SPMC.SPMCQ T) (p : t)
  : SPMC.SPMCQ T * t :=
  match items with
  | [] => (queue, p)
  | v :: items' =>
      let '(_, queue', p') := push v queue p in push_all items' queue' p'
  end.

End SPMCProducer.

(** ** The consumer handle: [SPMCConsumer] *)

Module SPMCConsumer.

Record t : Type := mk {
  capacity_ : Z;
  lReadIdx : Z;
  lVersion : Z       (* uint32_t *)
}.

(** [SPMCQ::getConsumer()], that is [SPMCConsumer(SPMCQ<T>& queue)] with the
    default member initialisers [lReadIdx{0}] and [lVersion{0}]. *)
Definition getConsumer {T : Type} (queue : SPMC.SPMCQ T) : t :=
  {| capacity_ := SPMC.capacity_ queue; lReadIdx := 0; lVersion := 0 |}.

(** How [pop] ends: [return true] with the item, [return false], or the
    [std::runtime_error] "consumer overlapped at index ...". *)
Inductive result (T : Type) : Type :=
| Popped (item : T)
| Empty
| Overlapped (index : Z).
Arguments Popped {T}.
Arguments Empty {T}.
Arguments Overlapped {T}.

(** [bool SPMCConsumer::pop(T& item)].  The ring is only read. *)
Definition pop {T : Type} (dflt : T) (queue : SPMC.SPMCQ T) (c : t) : result T * t :=
  if lReadIdx c =? SPMC.mReadIndex queue then (Empty, c)
  else
    let val := at_ (SPMC.entry0 dflt) (SPMC.items_ queue) (lReadIdx c) in
    if negb (SPMC.version val =? lVersion c) then (Overlapped (lReadIdx c), c)
    else
      let nxtReadIdx_nowrap := Word.wrap (lReadIdx c + 1) in
      let nxtVersion :=
        Word.wrap32 (lVersion c + Word.of_bool (nxtReadIdx_nowrap =? capacity_ c)) in
      (Popped (SPMC.data val),
       {| capacity_ := capacity_ c;
          lReadIdx := Z.land nxtReadIdx_nowrap (Word.wrap (capacity_ c - 1));
          lVersion := nxtVersion |}).

(** Modelled from the spec: [SPMCConsumer::respawn()] is called by the
    benchmarks and shown in the README, but the header does not define
    it.  The specification says it resyncs "this consumer's local
    read index and version to the producer's current cursor": the read
    index becomes the published cursor and the expected version the
    producer's current version. *)
Definition respawn {T : Type} (queue : SPMC.SPMCQ T) (producer : SPMCProducer.t)
    (c : t) : t :=
  {| capacity_ := capacity_ c;
     lReadIdx := SPMC.mReadIndex queue;
     lVersion := SPMCProducer.lVersion producer |}.

(** [n] pops in a row, with what each of them returned. *)
Fixpoint pop_n {T : Type} (dflt : T) (n : nat) (queue : SPMC.SPMCQ T) (c : t)
  : list (result T) * t :=
  match n with
  | O => ([], c)
  | S n' =>
      let (r, c') := pop dflt queue c in
      let (rs, c'') := pop_n dflt n' queue c' in
      (r :: rs, c'')
  end.

End SPMCConsumer.

(** ** One producer and any number of consumers on one ring *)

Module SPMCSystem.
Section Model.
Variable T : Type.
Variable dflt : T.

Record state : Type := mkState {
  queue : SPMC.SPMCQ T;
  producer : SPMCProducer.t;
  consumers : list SPMCConsumer.t
}.

(** A call made by one of the threads; consumers are named by the order in
    which their handles were created. *)
Inductive op : Type :=
| Push (v : T)
| Pop (i : nat)
| GetConsumer.

Inductive event : Type :=
| Pushed (v : T)
| PopReturned (i : nat) (r : SPMCConsumer.result T)
| Created (i : nat).

(** The system right after construction: the ring and its producer handle. *)
Definition init (q : SPMC.SPMCQ T) : state :=
  {| queue := q; producer := SPMCProducer.getProducer q; consumers := [] |}.

Definition step (o : op) (s : state) : list event * state :=
  match o with
  | Push v =>
      let '(_, q', p') := SPMCProducer.push v (queue s) (producer s) in
      ([Pushed v], {| queue := q'; producer := p'; consumers := consumers s |})
  | Pop i =>
      match nth_error (consumers s) i with
      | Some c =>
          let (r, c') := SPMCConsumer.pop dflt (queue s) c in
          ([PopReturned i r],
           {| queue := queue s; producer := producer s;
              consumers := upd (consumers s) i c' |})
      | None => ([], s)       (* no such handle: nothing is called *)
      end
  | GetConsumer =>
      ([Created (length (consumers s))],
       {| queue := queue s; producer := producer s;
          consumers := consumers s ++ [SPMCConsumer.getConsumer (queue s)] |})
  end.

Fixpoint run (ops : list op) (s : state) : list event * state :=
  match ops with
  | [] => ([], s)
  | o :: ops' =>
      let (es, s') := step o s in
      let (es', s'') := run ops' s' in
      (es ++ es', s'')
  end.

(** The values pushed, in order. *)
Definition pushed_of (e : event) : list T :=
  match e with Pushed v => [v] | _ => [] end.
Definition pushed (es : list event) : list T := flat_map pushed_of es.

(** The values consumer [i] popped, in order. *)
Definition popped_of (i : nat) (e : event) : list T :=
  match e with
  | PopReturned j (SPMCConsumer.Popped v) => if Nat.eqb j i then [v] else []
  | _ => []
  end.
Definition popped_by (i : nat) (es : list event) : list T := flat_map (popped_of i) es.

(** Whether a pop of consumer [i] failed with [Overlapped]. *)
Definition overlap_of (i : nat) (e : event) : bool :=
  match e with
  | PopReturned j (SPMCConsumer.Overlapped _) => Nat.eqb j i
  | _ => false
  end.
Definition overlapped (i : nat) (es : list event) : bool := existsb (overlap_of i) es.

(** ** Representation invariants

    [hist] are the values pushed so far, [n] of them.  The producer is at
    position [n]: index [n mod c], version [n / c]; the cursors it
    publishes stand at the same index; the slot of each of the last [c]
    pushes holds its value and the version of its lap; a slot never
    written is still value-initialised. *)
Record RingInv (c : Z) (q : SPMC.SPMCQ T) (p : SPMCProducer.t) (hist : list T)
  : Prop := {
  ring_cap : SPMC.capacity_ q = c;
  ring_pcap : SPMCProducer.capacity_ p = c;
  ring_len : Z.of_nat (length (SPMC.items_ q)) = c;
  ring_read : SPMC.mReadIndex q = Z.of_nat (length hist) mod c;
  ring_write : SPMC.mWriteIndex q = Z.of_nat (length hist) mod c;
  ring_widx : SPMCProducer.lWriteIdx p = Z.of_nat (length hist) mod c;
  ring_wver : SPMCProducer.lVersion p = Word.wrap32 (Z.of_nat (length hist) / c);
  ring_slots : forall j : Z,
      0 <= j -> Z.of_nat (length hist) - c <= j < Z.of_nat (length hist) ->
      at_ (SPMC.entry0 dflt) (SPMC.items_ q) (j mod c) =
      {| SPMC.data := nth (Z.to_nat j) hist dflt; SPMC.version := Word.wrap32 (j / c) |};
  ring_fresh : forall i : Z,
      Z.of_nat (length hist) <= i < c ->
      at_ (SPMC.entry0 dflt) (SPMC.items_ q) i = SPMC.entry0 dflt
}.

(** A consumer handle stands at position [m]: index [m mod c], expected
    version [m / c]. *)
Record At (c : Z) (h : SPMCConsumer.t) (m : Z) : Prop := {
  at_cap : SPMCConsumer.capacity_ h = c;
  at_pos : 0 <= m;
  at_idx : SPMCConsumer.lReadIdx h = m mod c;
  at_ver : SPMCConsumer.lVersion h = Word.wrap32 (m / c)
}.

(** What a history says about consumer [i]: [pop] are the values it has
    popped and [ovl] tells whether one of its pops failed with
    [Overlapped].  While it has no handle it has popped nothing; once it has
    one, the handle stands at some position [m] not past the producer's,
    and, unless it was overlapped, it has popped the first [m] values ever
    pushed. *)
Definition Follows (c : Z) (s : state) (hist : list T) (i : nat)
    (pop : list T) (ovl : bool) : Prop :=
  RingInv c (queue s) (producer s) hist /\
  match nth_error (consumers s) i with
  | Some h =>
      exists m : nat,
        At c h (Z.of_nat m) /\ (m <= length hist)%nat /\
        (ovl = false -> pop = firstn m hist)
  | None => pop = [] /\ ovl = false
  end.

End Model.

Arguments mkState {T}.
Arguments queue {T}.
Arguments producer {T}.
Arguments consumers {T}.
Arguments Push {T}.
Arguments Pop {T}.
Arguments GetConsumer {T}.
Arguments Pushed {T}.
Arguments PopReturned {T}.
Arguments Created {T}.
Arguments init {T}.
Arguments step {T}.
Arguments run {T}.
Arguments pushed {T}.
Arguments popped_by {T}.
Arguments overlapped {T}.
Arguments RingInv {T}.
Arguments Follows {T}.

End SPMCSystem.

(** ** A consumer that has fallen a lap behind *)

Module SPMCLag.
Section Model.
Variable T : Type.
Variable dflt : T.

(** What a history says about how far consumer [i] is behind: its handle
    stands at a position [m] not past the producer's, and once one of its
    pops has failed with [Overlapped] ([ovl]) it is a whole lap or more
    behind. *)
Definition Lagging (c : Z) (s : SPMCSystem.state T) (hist : list T) (i : nat)
    (ovl : bool) : Prop :=
  SPMCSystem.RingInv dflt c (SPMCSystem.queue s) (SPMCSystem.producer s) hist /\
  match nth_error (SPMCSystem.consumers s) i with
  | Some h =>
      exists m : nat,
        SPMCSystem.At c h (Z.of_nat m) /\ (m <= length hist)%nat /\
        (ovl = true -> Z.of_nat m + c <= Z.of_nat (length hist))
  | None => ovl = false
  end.

End Model.

Arguments Lagging {T}.

End SPMCLag.

(* ================================================================== *)
(** * Callers: the benchmark programs                                   *)
(* ================================================================== *)

(** ** The single-thread round trip of the Google-Benchmark program *)

Module RoundTrip.

(** [queue_wrapper<T, queue_type::spsc>::push]:
    [while (!lockedin::SPSCQ<T>::push(value)) {}], with [fuel] bounding the
    number of attempts. *)
Fixpoint wrapper_push {T : Type} (fuel : nat) (value : T) (q : SPSC.SPSCQ T)
  : option (SPSC.SPSCQ T) :=
  match fuel with
  | O => None
  | S fuel' =>
      let (ok, q') := SPSC.push value q in
      if ok then Some q' else wrapper_push fuel' value q'
  end.

(** How the benchmark body ends after the iterations the framework asks
    for: normally, with [throw std::runtime_error("oops")], or still
    spinning in [push] when the fuel is spent. *)
Inductive outcome : Type :=
| Finished (iteration : Z) (q1 : SPSC.SPSCQ Z)
| Oops
| Spinning.

(** [roundtrip_single_thread<queue_type::spsc>], for [n] iterations of the
    [for (auto _ : st)] loop; the payload is [size_t]. *)
Fixpoint roundtrip_single_thread (fuel n : nat) (iteration : Z) (q1 : SPSC.SPSCQ Z)
  : outcome :=
  match n with
  | O => Finished iteration q1
  | S n' =>
      let to_send := iteration in
      let iteration' := Word.wrap (iteration + 1) in
      match wrapper_push fuel to_send q1 with
      | None => Spinning
      | Some q1' =>
          let to_recv := 0 in
          let (r, q1'') := SPSC.pop 0 q1' in
          let to_recv' := match r with Some v => v | None => to_recv end in
          if negb (to_recv' =? to_send) then Oops
          else roundtrip_single_thread fuel n' iteration' q1''
      end
  end.

End RoundTrip.

(** ** The loops of the throughput benchmark, on [SPSCQ<int>] *)

Module Throughput.

(** The iterations [i, i+1, ...] of [writerLoop]:
    [if (q.push(i)) ++successes;] *)
Fixpoint writer_iterations (n : nat) (i : Z) (q : SPSC.SPSCQ Z) (successes : Z)
  : SPSC.SPSCQ Z * Z :=
  match n with
  | O => (q, successes)
  | S n' =>
      let (ok, q') := SPSC.push i q in
      writer_iterations n' (i + 1) q'
        (if ok then Word.wrap (successes + 1) else successes)
  end.

(** [throughput_benchmark::writerLoop(q, nIter, successes, sync)] *)
Definition writerLoop (q : SPSC.SPSCQ Z) (nIter : Z) (successes : Z)
  : SPSC.SPSCQ Z * Z :=
  writer_iterations (Z.to_nat nIter) 0 q successes.

(** The iterations of [readerLoop]: [if (q.pop(tmp)) ++successes;] *)
Fixpoint reader_iterations (n : nat) (q : SPSC.SPSCQ Z) (successes : Z)
  : SPSC.SPSCQ Z * Z :=
  match n with
  | O => (q, successes)
  | S n' =>
      let (r, q') := SPSC.pop 0 q in
      reader_iterations n' q'
        (match r with Some _ => Word.wrap (successes + 1) | None => successes end)
  end.

(** [throughput_benchmark::readerLoop(q, nIter, successes, sync)] *)
Definition readerLoop (q : SPSC.SPSCQ Z) (nIter : Z) (successes : Z)
  : SPSC.SPSCQ Z * Z :=
  reader_iterations (Z.to_nat nIter) q successes.

End Throughput.

(** ** The parametrised unit test of [tests/abstract_queue_tests.cpp] *)

Module UnitTest.

(** A run of the test passes, or stops at the first [assert] that fails
    (numbered in program order). *)
Inductive verdict : Type :=
| Passed
| Aborted (assertion : nat).

(** [for (int i = 0; i < fillLimit; ++i) assert(q.push(i));] from [i] on,
    [n] iterations; [None] when one of the assertions fails. *)
Fixpoint fill (n : nat) (i : Z) (q : SPSC.SPSCQ Z) : option (SPSC.SPSCQ Z) :=
  match n with
  | O => Some q
  | S n' =>
      let (ok, q') := SPSC.push i q in
      if ok then fill n' (i + 1) q' else None
  end.

(** [void unitTest(Q& q, const int fillLimit)] on [SPSCQ<int>]. *)
Definition unitTest (q : SPSC.SPSCQ Z) (fillLimit : Z) : verdict :=
  if negb (SPSC.empty q) then Aborted 1 else
  if SPSC.full q then Aborted 2 else
  match fill (Z.to_nat fillLimit) 0 q with
  | None => Aborted 3
  | Some q =>
      if negb (SPSC.full q) then Aborted 4 else
      let (ok, q) := SPSC.push 10 q in
      if ok then Aborted 5 else
      let (r, q) := SPSC.pop 0 q in
      match r with
      | None => Aborted 6
      | Some popped =>
          if negb (popped =? 0) then Aborted 6 else
          let (r, q) := SPSC.pop 0 q in
          match r with
          | None => Aborted 7
          | Some popped =>
              if negb (popped =? 1) then Aborted 7 else
              if negb (SPSC.size q =? Word.wrap (fillLimit - 2)) then Aborted 8 else
              let (ok, q) := SPSC.push 11 q in
              if negb ok then Aborted 9 else
              if negb (SPSC.size q =? Word.wrap (fillLimit - 1)) then Aborted 10
              else Passed
          end
      end
  end.

(** The values [i, i+1, ..., i+n-1] the fill loop pushes. *)
Definition counting (i : Z) (n : nat) : list Z :=
  map (fun k => i + Z.of_nat k) (seq 0 n).

End UnitTest.

(* ================================================================== *)
(** * Arithmetic of masks, wrap-around and windows                      *)
(* ================================================================== *)

Section Arithmetic.
Import Word Capacity.

Lemma wrap_small (x : Z) : 0 <= x < 2 ^ 64 -> wrap x = x.
Proof. intros H. unfold wrap, size_bits. apply Z.mod_small; exact H. Qed.

Lemma wrap_range (x : Z) : 0 <= wrap x < 2 ^ 64.
Proof. unfold wrap, size_bits. apply Z.mod_pos_bound. reflexivity. Qed.

Lemma wrap_wrap_add (a b : Z) : wrap (wrap a + b) = wrap (a + b).
Proof. unfold wrap. apply Z.add_mod_idemp_l. unfold size_bits; lia. Qed.

Lemma wrap_sub_wrap (a b : Z) : wrap (wrap a - wrap b) = wrap (a - b).
Proof. unfold wrap. symmetry. apply Zminus_mod. Qed.

Lemma good_range (c : Z) : good c -> 2 <= c <= 2 ^ 63.
Proof.
  intros (k & Hk & ->). split.
  - change 2 with (2 ^ 1) at 1. apply Z.pow_le_mono_r; lia.
  - apply Z.pow_le_mono_r; lia.
Qed.

Lemma good_divides (c : Z) : good c -> (c | 2 ^ 64).
Proof.
  intros (k & Hk & ->). exists (2 ^ (64 - k)).
  rewrite <- Z.pow_add_r by lia. f_equal. lia.
Qed.

Lemma wrap_mod (c x : Z) : good c -> wrap x mod c = x mod c.
Proof.
  intros Hc. unfold wrap, size_bits. apply Z.mod_mod_divide.
  apply good_divides; exact Hc.
Qed.

(** Masking with [capacity - 1] is reduction modulo the capacity. *)
Lemma land_mask (c x : Z) : good c -> Z.land x (wrap (c - 1)) = x mod c.
Proof.
  intros Hc. pose proof (good_range c Hc) as Hr.
  rewrite wrap_small by lia.
  destruct Hc as (k & Hk & ->).
  replace (2 ^ k - 1) with (Z.ones k) by (rewrite Z.ones_equiv; lia).
  apply Z.land_ones. lia.
Qed.

(** The masked successor of a cursor kept modulo the capacity. *)
Lemma next_index (c n : Z) :
  good c -> Z.land (wrap (n mod c + 1)) (wrap (c - 1)) = (n + 1) mod c.
Proof.
  intros Hc. pose proof (good_range c Hc) as Hr.
  rewrite land_mask, wrap_mod by exact Hc.
  apply Z.add_mod_idemp_l. lia.
Qed.

(** Two positions less than a capacity apart occupy different slots. *)
Lemma window_inj (c a b : Z) :
  0 < c -> a mod c = b mod c -> - c < a - b < c -> a = b.
Proof.
  intros Hc Hm Hw.
  pose proof (Z.div_mod a c ltac:(lia)) as Ha.
  pose proof (Z.div_mod b c ltac:(lia)) as Hb.
  assert (a - b = c * (a / c - b / c)) as E by lia.
  assert (a / c - b / c = 0) by nia. lia.
Qed.

Lemma mod_succ_wrap (c n : Z) :
  0 < c -> n mod c + 1 = c -> (n + 1) mod c = 0 /\ (n + 1) / c = n / c + 1.
Proof.
  intros Hc Hn.
  pose proof (Z.div_mod n c ltac:(lia)) as Hd.
  split; symmetry.
  - apply (Zmod_unique (n + 1) c (n / c + 1) 0); lia.
  - apply (Zdiv_unique (n + 1) c (n / c + 1) 0); lia.
Qed.

Lemma mod_succ_nowrap (c n : Z) :
  0 < c -> n mod c + 1 <> c -> (n + 1) mod c = n mod c + 1 /\ (n + 1) / c = n / c.
Proof.
  intros Hc Hn.
  pose proof (Z.div_mod n c ltac:(lia)) as Hd.
  pose proof (Z.mod_pos_bound n c Hc) as Hb.
  split; symmetry.
  - apply (Zmod_unique (n + 1) c (n / c) (n mod c + 1)); lia.
  - apply (Zdiv_unique (n + 1) c (n / c) (n mod c + 1)); lia.
Qed.

End Arithmetic.

(* ================================================================== *)
(** * Arrays: reading after writing                                     *)
(* ================================================================== *)

Section Arrays.
Context {A : Type}.

Lemma length_upd (l : list A) (i : nat) (x : A) : length (upd l i x) = length l.
Proof.
  revert i; induction l as [|h t IH]; intros [|i]; simpl; auto.
Qed.

Lemma nth_upd_same (d : A) (l : list A) (i : nat) (x : A) :
  (i < length l)%nat -> nth i (upd l i x) d = x.
Proof.
  revert i; induction l as [|h t IH]; intros [|i] H; simpl in *; try lia; auto.
  apply IH. lia.
Qed.

Lemma nth_upd_other (d : A) (l : list A) (i j : nat) (x : A) :
  i <> j -> nth j (upd l i x) d = nth j l d.
Proof.
  revert i j; induction l as [|h t IH]; intros [|i] [|j] H; simpl; auto; try congruence.
Qed.

Lemma length_set (l : list A) (i : Z) (x : A) : length (set_ l i x) = length l.
Proof. apply length_upd. Qed.

Lemma at_set_same (d : A) (l : list A) (i : Z) (x : A) :
  0 <= i < Z.of_nat (length l) -> at_ d (set_ l i x) i = x.
Proof. intros H. unfold at_, set_. apply nth_upd_same. lia. Qed.

Lemma at_set_other (d : A) (l : list A) (i j : Z) (x : A) :
  0 <= i -> 0 <= j -> i <> j -> at_ d (set_ l i x) j = at_ d l j.
Proof. intros Hi Hj H. unfold at_, set_. apply nth_upd_other. lia. Qed.

Lemma firstn_snoc_nth (d : A) (l : list A) (n : nat) :
  (n < length l)%nat -> firstn (S n) l = firstn n l ++ [nth n l d].
Proof.
  revert n; induction l as [|h t IH]; intros [|n] H; simpl in *; try lia; auto.
  f_equal. apply IH. lia.
Qed.

Lemma firstn_app_left (l r : list A) (n : nat) :
  (n <= length l)%nat -> firstn n (l ++ r) = firstn n l.
Proof.
  intros H. rewrite firstn_app.
  replace (n - length l)%nat with O by lia. simpl. apply app_nil_r.
Qed.

End Arrays.

(* ================================================================== *)
(** * The capacity guards accept exactly the powers of two from 2 on    *)
(* ================================================================== *)

Section CapacityFacts.
Import Word Capacity.

Lemma count_bits_nonneg (n : nat) (x : Z) : 0 <= count_bits n x.
Proof.
  induction n as [|n IH]; simpl; [lia|].
  destruct (Z.testbit x (Z.of_nat n)); simpl; lia.
Qed.

Lemma mod_pow2_succ (x n : Z) :
  0 <= n -> x mod 2 ^ (n + 1) = x mod 2 ^ n + 2 ^ n * Z.b2z (Z.testbit x n).
Proof.
  intros Hn. rewrite Z.pow_add_r by lia. change (2 ^ 1) with 2.
  rewrite Z.rem_mul_r by (try apply Z.pow_nonzero; lia).
  rewrite Z.testbit_spec' by lia. reflexivity.
Qed.

Lemma count_bits_zero (n : nat) (x : Z) :
  count_bits n x = 0 -> x mod 2 ^ Z.of_nat n = 0.
Proof.
  induction n as [|n IH]; simpl count_bits; intros H.
  - simpl. apply Z.mod_1_r.
  - pose proof (count_bits_nonneg n x) as Hp.
    rewrite Nat2Z.inj_succ, <- Z.add_1_r, mod_pow2_succ by lia.
    destruct (Z.testbit x (Z.of_nat n)); simpl in *; [lia|].
    rewrite IH by lia. lia.
Qed.

Lemma count_bits_one (n : nat) (x : Z) :
  count_bits n x = 1 ->
  exists k, 0 <= k < Z.of_nat n /\ x mod 2 ^ Z.of_nat n = 2 ^ k.
Proof.
  induction n as [|n IH]; simpl count_bits; intros H; [lia|].
  pose proof (count_bits_nonneg n x) as Hp.
  rewrite Nat2Z.inj_succ, <- Z.add_1_r, mod_pow2_succ by lia.
  destruct (Z.testbit x (Z.of_nat n)); simpl in *.
  - exists (Z.of_nat n). split; [lia|].
    rewrite (count_bits_zero n x) by lia. lia.
  - destruct IH as (k & Hk & E); [lia|].
    exists k. split; [lia|]. rewrite E. lia.
Qed.

Lemma count_bits_pow2 (n : nat) (k : Z) :
  0 <= k -> count_bits n (2 ^ k) = if k <? Z.of_nat n then 1 else 0.
Proof.
  intros Hk. induction n as [|n IH]; simpl count_bits.
  - destruct (Z.ltb_spec k (Z.of_nat 0)); lia.
  - rewrite IH, Z.pow2_bits_eqb by lia.
    destruct (Z.ltb_spec k (Z.of_nat n)), (Z.ltb_spec k (Z.of_nat (S n))),
      (Z.eqb_spec k (Z.of_nat n)); simpl; lia.
Qed.

Lemma popcount_one_iff (c : Z) :
  0 <= c < 2 ^ 64 -> (popcount c = 1 <-> exists k, 0 <= k < 64 /\ c = 2 ^ k).
Proof.
  intros Hc. unfold popcount, size_bits. split.
  - intros H. apply count_bits_one in H. destruct H as (k & Hk & E).
    change (Z.of_nat (Z.to_nat 64)) with 64 in *.
    rewrite Z.mod_small in E by lia. eauto.
  - intros (k & Hk & ->). rewrite count_bits_pow2 by lia.
    change (Z.of_nat (Z.to_nat 64)) with 64.
    destruct (Z.ltb_spec k 64); lia.
Qed.

Lemma pow2_ge_2 (k : Z) : 0 <= k -> 2 <= 2 ^ k -> 1 <= k.
Proof.
  intros Hk H. destruct (Z.eq_dec k 0) as [->|]; [simpl in H; lia | lia].
Qed.

(** The [bitset] guard of the SPSC and SPMC constructors. *)
Lemma bitset_guard_iff (c : Z) :
  0 <= c < 2 ^ 64 -> (rejected_by_bitset c = false <-> good c).
Proof.
  intros Hc. unfold rejected_by_bitset.
  rewrite orb_false_iff, negb_false_iff, Z.ltb_ge, Z.eqb_eq, (popcount_one_iff c Hc).
  split.
  - intros (H2 & k & Hk & ->). exists k. split; [|reflexivity].
    pose proof (pow2_ge_2 k). lia.
  - intros Hg. pose proof (good_range c Hg). destruct Hg as (k & Hk & ->).
    split; [lia|]. exists k. split; [lia | reflexivity].
Qed.

Lemma land_pred_pow2 (k : Z) : 0 <= k -> Z.land (2 ^ k) (2 ^ k - 1) = 0.
Proof.
  intros Hk.
  replace (2 ^ k - 1) with (Z.ones k) by (rewrite Z.ones_equiv; lia).
  rewrite Z.land_ones by lia. apply Z.mod_same. apply Z.pow_nonzero; lia.
Qed.

Lemma land_pred_zero_pow2 (c : Z) :
  2 <= c -> Z.land c (c - 1) = 0 -> c = 2 ^ Z.log2 c.
Proof.
  intros Hc H.
  pose proof (Z.log2_spec c ltac:(lia)) as [Hlo Hhi].
  destruct (Z.eq_dec c (2 ^ Z.log2 c)) as [E|N]; [exact E|exfalso].
  assert (Z.log2 (c - 1) = Z.log2 c) as El.
  { apply Z.log2_unique; [apply Z.log2_nonneg | lia]. }
  assert (Z.testbit (Z.land c (c - 1)) (Z.log2 c) = true) as Hb.
  { rewrite Z.land_spec, Z.bit_log2 by lia.
    rewrite <- El. rewrite Z.bit_log2 by lia. reflexivity. }
  rewrite H, Z.bits_0 in Hb. discriminate.
Qed.

(** The mask guard of the MPSC constructor. *)
Lemma mask_guard_iff (c : Z) :
  0 <= c < 2 ^ 64 -> (rejected_by_mask c = false <-> good c).
Proof.
  intros Hc. unfold rejected_by_mask.
  rewrite orb_false_iff, negb_false_iff, Z.ltb_ge, Z.eqb_eq.
  split.
  - intros (H2 & H). rewrite wrap_small in H by lia.
    apply land_pred_zero_pow2 in H; [|lia].
    exists (Z.log2 c). split; [|exact H].
    pose proof (Z.log2_nonneg c). pose proof (pow2_ge_2 (Z.log2 c)).
    assert (Z.log2 c < 64) by (apply Z.log2_lt_pow2; lia). lia.
  - intros Hg. pose proof (good_range c Hg). split; [lia|].
    rewrite wrap_small by lia. destruct Hg as (k & Hk & ->).
    apply land_pred_pow2. lia.
Qed.

End CapacityFacts.

(* ================================================================== *)
(** * SPSC: the ring behaves as a bounded FIFO                          *)
(* ================================================================== *)

Section Windows.

Lemma mod_add_cap (c a : Z) : 0 < c -> (a + c) mod c = a mod c.
Proof.
  intros Hc. replace (a + c) with (a + 1 * c) by lia. apply Z.mod_add. lia.
Qed.

Lemma full_window (c a p : Z) :
  0 < c -> p <= a <= p + c - 1 -> ((a + 1) mod c = p mod c <-> a = p + c - 1).
Proof.
  intros Hc Hw. split.
  - intros E. rewrite <- (mod_add_cap c p Hc) in E.
    apply window_inj in E; lia.
  - intros ->. replace (p + c - 1 + 1) with (p + c) by lia. apply mod_add_cap, Hc.
Qed.

Lemma empty_window (c a p : Z) :
  0 < c -> p <= a <= p + c - 1 -> (p mod c = a mod c <-> a = p).
Proof.
  intros Hc Hw. split.
  - intros E. apply window_inj in E; lia.
  - intros ->. reflexivity.
Qed.

Lemma masked_distance (c a p : Z) :
  Capacity.good c -> 0 <= a - p < c ->
  Z.land (Word.wrap (a mod c - p mod c)) (Word.wrap (c - 1)) = a - p.
Proof.
  intros Hc Hw. pose proof (good_range c Hc).
  rewrite land_mask, wrap_mod by exact Hc.
  rewrite <- Zminus_mod. apply Z.mod_small. lia.
Qed.

End Windows.

Section HistoryFacts.
Import History.
Context {T : Type}.

Lemma accepted_app (es es' : list (event T)) :
  accepted (es ++ es') = accepted es ++ accepted es'.
Proof. apply flat_map_app. Qed.

Lemma popped_app (es es' : list (event T)) :
  popped (es ++ es') = popped es ++ popped es'.
Proof. apply flat_map_app. Qed.

End HistoryFacts.

Section SPSC_correct.
Import Word Capacity History SPSC.
Variable T : Type.
Variable dflt : T.

Local Abbreviation len l := (Z.of_nat (length l)).

(** A constructed queue is empty and its capacity passed the guard. *)
Lemma spsc_make_inv (c : Z) (q0 : SPSCQ T) :
  0 <= c < 2 ^ 64 -> make dflt c = Constructed q0 ->
  good c /\ Inv dflt c q0 [] [].
Proof.
  intros Hc. unfold make.
  destruct (rejected_by_bitset c) eqn:G; [discriminate|].
  intros [= <-]. apply bitset_guard_iff in G; [|exact Hc].
  pose proof (good_range c G). split; [exact G|].
  constructor; simpl; try rewrite repeat_length; try rewrite Z.mod_0_l; try lia; auto.
Qed.

Lemma spsc_push_inv (c : Z) (q : SPSCQ T) (acc pop : list T) (v : T) :
  good c -> Inv dflt c q acc pop ->
  (len acc = len pop + c - 1 /\ push v q = (false, q)) \/
  (len acc < len pop + c - 1 /\ exists q', push v q = (true, q') /\
      Inv dflt c q' (acc ++ [v]) pop).
Proof.
  intros Hc [Hcap Hlen Hr Hw Hb Hp Hs]. pose proof (good_range c Hc) as Hrg.
  unfold push. rewrite Hcap, Hw, Hr, next_index by exact Hc.
  destruct (Z.eqb_spec ((len acc + 1) mod c) (len pop mod c)) as [E|N].
  - left. apply full_window in E; [|lia|lia]. auto.
  - right. rewrite full_window in N by lia. split; [lia|].
    eexists; split; [reflexivity|].
    pose proof (Z.mod_pos_bound (len acc) c ltac:(lia)) as Hwb.
    constructor; simpl; rewrite ?length_set, ?length_app; simpl; auto; try lia.
    + rewrite firstn_app_left by lia. exact Hp.
    + intros j Hj.
      destruct (Nat.eq_dec j (length acc)) as [->|Nj].
      * rewrite at_set_same by lia. rewrite nth_middle. reflexivity.
      * rewrite app_nth1 by lia. rewrite <- Hs by lia.
        pose proof (Z.mod_pos_bound (Z.of_nat j) c ltac:(lia)).
        apply at_set_other; try lia.
        intros E. apply window_inj in E; lia.
Qed.

Lemma spsc_pop_inv (c : Z) (q : SPSCQ T) (acc pop : list T) :
  good c -> Inv dflt c q acc pop ->
  (len acc = len pop /\ SPSC.pop dflt q = (None, q)) \/
  (len pop < len acc /\ exists q',
      SPSC.pop dflt q = (Some (nth (length pop) acc dflt), q') /\
      Inv dflt c q' acc (pop ++ [nth (length pop) acc dflt])).
Proof.
  intros Hc [Hcap Hlen Hr Hw Hb Hp Hs]. pose proof (good_range c Hc) as Hrg.
  unfold SPSC.pop. rewrite Hcap, Hw, Hr, next_index by exact Hc.
  destruct (Z.eqb_spec (len pop mod c) (len acc mod c)) as [E|N].
  - left. apply empty_window in E; [|lia|lia]. auto.
  - right. rewrite empty_window in N by lia. split; [lia|].
    rewrite Hs by lia.
    eexists; split; [reflexivity|].
    constructor; simpl; rewrite ?length_app; simpl; auto; try lia.
    + replace (length pop + 1)%nat with (S (length pop)) by lia.
      rewrite (firstn_snoc_nth dflt) by lia. rewrite <- Hp. reflexivity.
    + intros j Hj. apply Hs. lia.
Qed.

Lemma spsc_size_inv (c : Z) (q : SPSCQ T) (acc pop : list T) :
  good c -> Inv dflt c q acc pop -> size q = len acc - len pop.
Proof.
  intros Hc [Hcap Hlen Hr Hw Hb Hp Hs]. pose proof (good_range c Hc).
  unfold size. rewrite Hcap, Hw, Hr. apply masked_distance; [exact Hc | lia].
Qed.

Lemma spsc_full_inv (c : Z) (q : SPSCQ T) (acc pop : list T) :
  good c -> Inv dflt c q acc pop ->
  (full q = true <-> len acc = len pop + c - 1).
Proof.
  intros Hc [Hcap Hlen Hr Hw Hb Hp Hs]. pose proof (good_range c Hc).
  unfold full. rewrite Hcap, Hw, Hr, next_index, Z.eqb_eq by exact Hc.
  apply full_window; lia.
Qed.

(** Every history keeps the invariant: the accepted and popped values of
    the history extend those seen before it. *)
Lemma spsc_run_inv (c : Z) (ops : list (op T)) :
  good c -> forall (q : SPSCQ T) (acc pop : list T),
  Inv dflt c q acc pop ->
  Inv dflt c (snd (run dflt ops q))
      (acc ++ accepted (fst (run dflt ops q)))
      (pop ++ popped (fst (run dflt ops q))).
Proof.
  intros Hc. induction ops as [|o ops IH]; intros q acc pop HI.
  - simpl. rewrite !app_nil_r. exact HI.
  - simpl. destruct o as [v|]; simpl.
    + destruct (spsc_push_inv c q acc pop v Hc HI)
        as [(_ & E) | (_ & q' & E & HI')]; rewrite E.
      * specialize (IH q acc pop HI).
        destruct (run dflt ops q) as [es q'']. simpl in *. exact IH.
      * specialize (IH q' _ pop HI').
        destruct (run dflt ops q') as [es q'']. simpl in *.
        rewrite <- app_assoc in IH. exact IH.
    + destruct (spsc_pop_inv c q acc pop Hc HI)
        as [(_ & E) | (_ & q' & E & HI')]; rewrite E.
      * specialize (IH q acc pop HI).
        destruct (run dflt ops q) as [es q'']. simpl in *. exact IH.
      * specialize (IH q' acc _ HI').
        destruct (run dflt ops q') as [es q'']. simpl in *.
        rewrite <- app_assoc in IH. exact IH.
Qed.

Lemma spsc_reachable_inv (c : Z) (q0 : SPSCQ T) (ops : list (op T)) :
  0 <= c < 2 ^ 64 -> make dflt c = Constructed q0 ->
  good c /\
  Inv dflt c (snd (run dflt ops q0))
      (accepted (fst (run dflt ops q0))) (popped (fst (run dflt ops q0))).
Proof.
  intros Hc Hm. destruct (spsc_make_inv c q0 Hc Hm) as [Hg HI].
  split; [exact Hg|]. apply (spsc_run_inv c ops Hg q0 [] [] HI).
Qed.

Lemma spsc_empty_inv (c : Z) (q : SPSCQ T) (acc pop : list T) :
  good c -> Inv dflt c q acc pop -> (empty q = true <-> len acc = len pop).
Proof.
  intros Hc [Hcap Hlen Hr Hw Hb Hp Hs]. pose proof (good_range c Hc).
  unfold empty. rewrite Hw, Hr, Z.eqb_eq. apply empty_window; lia.
Qed.

Lemma spsc_run_app (ops ops' : list (op T)) (q : SPSCQ T) :
  run dflt (ops ++ ops') q =
  (fst (run dflt ops q) ++ fst (run dflt ops' (snd (run dflt ops q))),
   snd (run dflt ops' (snd (run dflt ops q)))).
Proof.
  revert q. induction ops as [|o ops IH]; intros q; simpl.
  - destruct (run dflt ops' q); reflexivity.
  - destruct (step dflt o q) as [e q1]. rewrite IH.
    destruct (run dflt ops q1) as [es q2]. reflexivity.
Qed.

(** Popping as many times as there are pending values hands out all of
    them. *)
Lemma spsc_drain (c : Z) (n : nat) :
  good c -> forall (q : SPSCQ T) (acc pop : list T),
  Inv dflt c q acc pop -> length acc = (length pop + n)%nat ->
  pop ++ popped (fst (run dflt (repeat Pop n) q)) = acc.
Proof.
  intros Hc. induction n as [|n IH]; intros q acc pop HI Hn.
  - simpl. rewrite app_nil_r. rewrite (inv_prefix HI).
    replace (length pop) with (length acc) by lia. apply firstn_all.
  - simpl. destruct (spsc_pop_inv c q acc pop Hc HI)
      as [(E & _) | (_ & q' & E & HI')]; [lia|]. rewrite E.
    specialize (IH q' acc _ HI').
    destruct (run dflt (repeat Pop n) q') as [es q'']. simpl in *.
    rewrite <- app_assoc in IH. apply IH.
    rewrite length_app. simpl. lia.
Qed.

End SPSC_correct.

(** C6 (SPSC, sequential use).  From a freshly constructed queue, after any
    history of pushes and pops: the popped values are, in order, the first
    of the accepted values (FIFO, nothing duplicated, nothing skipped); the
    accepted values not yet popped are [size()] many; and popping [size()]
    more times hands out every accepted value.  In particular, with
    capacity 4: pushes of 1, 2, 3 succeed, the push of 10 returns false,
    the two pops yield 1 then 2, the push of 11 succeeds, and [size()] is
    then 2. *)
Theorem spsc_fifo_sequential :
  (forall (T : Type) (dflt : T) (c : Z) (q0 : SPSC.SPSCQ T) (ops : list (History.op T)),
      0 <= c < 2 ^ 64 ->
      SPSC.make dflt c = Capacity.Constructed q0 ->
      let es := fst (SPSC.run dflt ops q0) in
      let q := snd (SPSC.run dflt ops q0) in
      History.popped es = firstn (length (History.popped es)) (History.accepted es) /\
      Z.of_nat (length (History.accepted es)) =
        Z.of_nat (length (History.popped es)) + SPSC.size q /\
      History.popped
        (fst (SPSC.run dflt (ops ++ repeat History.Pop (Z.to_nat (SPSC.size q))) q0)) =
        History.accepted es) /\
  (exists q4 : SPSC.SPSCQ Z,
      SPSC.make 0 4 = Capacity.Constructed q4 /\
      let r := SPSC.run 0 [History.Push 1; History.Push 2; History.Push 3; History.Push 10;
                           History.Pop; History.Pop; History.Push 11] q4 in
      fst r = [History.Pushed 1 true; History.Pushed 2 true; History.Pushed 3 true;
               History.Pushed 10 false;
               History.Popped (Some 1); History.Popped (Some 2);
               History.Pushed 11 true] /\
      SPSC.size (snd r) = 2).
Proof.
  split.
  - intros T dflt c q0 ops Hc Hm es q.
    destruct (spsc_reachable_inv T dflt c q0 ops Hc Hm) as [Hg HI].
    fold es q in HI.
    pose proof (spsc_size_inv T dflt c q _ _ Hg HI) as Hsz.
    pose proof (SPSC.inv_bound HI) as Hb.
    split; [exact (SPSC.inv_prefix HI)|].
    split; [lia|].
    rewrite spsc_run_app. simpl fst. rewrite popped_app. fold es q.
    apply (spsc_drain T dflt c _ Hg q _ _ HI). lia.
  - exists (SPSC.mkSPSCQ 4 [0; 0; 0; 0] 0 0).
    split; [vm_compute; reflexivity|]. split; vm_compute; reflexivity.
Qed.

Lemma spsc_fifo_sequential_witness :
  let ops := [History.Push 7; History.Pop; History.Push 8; History.Push 9; History.Pop] in
  let q0 := SPSC.mkSPSCQ 2 [0; 0] 0 0 in
  let es := fst (SPSC.run 0 ops q0) in
  let q := snd (SPSC.run 0 ops q0) in
  History.popped es = firstn (length (History.popped es)) (History.accepted es) /\
  Z.of_nat (length (History.accepted es)) =
    Z.of_nat (length (History.popped es)) + SPSC.size q /\
  History.popped
    (fst (SPSC.run 0 (ops ++ repeat History.Pop (Z.to_nat (SPSC.size q))) q0)) =
    History.accepted es.
Proof.
  apply (proj1 spsc_fifo_sequential Z 0 2); [lia | vm_compute; reflexivity].
Defined.

(** C7 (SPSC bound).  In every state reached from a freshly constructed
    queue of capacity [c]: [size()] lies in [0, c-1]; [full()] holds
    exactly when [size() = c-1]; a push returns false exactly when the
    queue is full; and [empty()] (size 0) and [full()] never hold together
    -- one slot always stays unused. *)
Theorem spsc_size_bound (T : Type) (dflt : T) (c : Z) (q0 : SPSC.SPSCQ T)
    (ops : list (History.op T)) :
  0 <= c < 2 ^ 64 ->
  SPSC.make dflt c = Capacity.Constructed q0 ->
  let q := snd (SPSC.run dflt ops q0) in
  0 <= SPSC.size q <= c - 1 /\
  (SPSC.full q = true <-> SPSC.size q = c - 1) /\
  (forall v : T, fst (SPSC.push v q) = false <-> SPSC.full q = true) /\
  (SPSC.empty q = true <-> SPSC.size q = 0) /\
  (SPSC.empty q = true -> SPSC.full q = false).
Proof.
  intros Hc Hm q.
  destruct (spsc_reachable_inv T dflt c q0 ops Hc Hm) as [Hg HI].
  fold q in HI. pose proof (good_range c Hg) as Hr.
  pose proof (spsc_size_inv T dflt c q _ _ Hg HI) as Hsz.
  pose proof (spsc_full_inv T dflt c q _ _ Hg HI) as Hfull.
  pose proof (spsc_empty_inv T dflt c q _ _ Hg HI) as Hempty.
  pose proof (SPSC.inv_bound HI) as Hb.
  split; [lia|]. split; [rewrite Hfull; lia|]. split; [|split].
  - intros v. rewrite Hfull.
    destruct (spsc_push_inv T dflt c q _ _ v Hg HI)
      as [(E & P) | (E & q' & P & _)]; rewrite P; simpl.
    + split; auto.
    + split; [discriminate | lia].
  - rewrite Hempty. lia.
  - intros He. apply Hempty in He.
    apply not_true_is_false. intros F. apply Hfull in F. lia.
Qed.

Lemma spsc_size_bound_witness :
  let q := snd (SPSC.run 0 [History.Push 1; History.Push 2; History.Push 3; History.Pop]
                 (SPSC.mkSPSCQ 4 [0; 0; 0; 0] 0 0)) in
  0 <= SPSC.size q <= 4 - 1 /\
  (SPSC.full q = true <-> SPSC.size q = 4 - 1) /\
  (forall v : Z, fst (SPSC.push v q) = false <-> SPSC.full q = true) /\
  (SPSC.empty q = true <-> SPSC.size q = 0) /\
  (SPSC.empty q = true -> SPSC.full q = false).
Proof.
  apply (spsc_size_bound Z 0 4); [lia | vm_compute; reflexivity].
Defined.

(* ================================================================== *)
(** * MPSC: conservation and FIFO hand-off under sequential use         *)
(* ================================================================== *)

Section SignedDifference.
Import Word.

Lemma wrap_to_signed (x : Z) : wrap (to_signed x) = wrap x.
Proof.
  unfold to_signed. destruct (x <? 2 ^ (size_bits - 1)); [reflexivity|].
  unfold wrap. replace (x - 2 ^ size_bits) with (x + (-1) * 2 ^ size_bits) by lia.
  apply Z.mod_add. unfold size_bits. lia.
Qed.

Lemma to_signed_wrap (d : Z) : - 2 ^ 63 <= d < 2 ^ 63 -> to_signed (wrap d) = d.
Proof.
  intros Hd. unfold to_signed, wrap, size_bits. change (64 - 1) with 63.
  destruct (Z_lt_le_dec d 0) as [Hn|Hp].
  - replace (d mod 2 ^ 64) with (d + 2 ^ 64)
      by (apply (Zmod_unique d (2 ^ 64) (-1)); lia).
    destruct (Z.ltb_spec (d + 2 ^ 64) (2 ^ 63)); lia.
  - rewrite Z.mod_small by lia.
    destruct (Z.ltb_spec d (2 ^ 63)); lia.
Qed.

(** The signed difference of two cursors only depends on the difference of
    the counts they stand for. *)
Lemma sdiff_wrap (a b : Z) : sdiff (wrap a) (wrap b) = to_signed (wrap (a - b)).
Proof.
  unfold sdiff. f_equal.
  rewrite <- wrap_sub_wrap, !wrap_to_signed, wrap_sub_wrap, wrap_sub_wrap.
  reflexivity.
Qed.

Lemma sdiff_near (a b : Z) :
  - 2 ^ 63 <= a - b < 2 ^ 63 -> sdiff (wrap a) (wrap b) = a - b.
Proof. intros H. rewrite sdiff_wrap. apply to_signed_wrap, H. Qed.

End SignedDifference.

Section MPSC_correct.
Import Word Capacity History MPSC.
Variable T : Type.
Variable dflt : T.

Local Abbreviation len l := (Z.of_nat (length l)).

Lemma init_sequences_spec (n : nat) (b : list (Cell T)) :
  length (init_sequences T dflt n b) = length b /\
  forall i : nat,
    nth i (init_sequences T dflt n b) (cell0 T dflt) =
    if (i <? n)%nat && (i <? length b)%nat
    then {| sequence := Z.of_nat i; value := value (nth i b (cell0 T dflt)) |}
    else nth i b (cell0 T dflt).
Proof.
  unfold init_sequences. induction n as [|n [IHl IHn]].
  - simpl. split; [reflexivity|]. intros i. reflexivity.
  - rewrite seq_S, fold_left_app. simpl. unfold store_sequence at 1 3.
    split.
    + rewrite length_set. exact IHl.
    + intros i. unfold set_, at_. rewrite Nat2Z.id.
      destruct (Nat.eq_dec n i) as [->|Ni].
      * destruct (Nat.ltb_spec i (length b)) as [Hlt|Hge].
        -- rewrite nth_upd_same by lia. rewrite IHn.
           destruct (Nat.ltb_spec i i); [lia|].
           destruct (Nat.ltb_spec i (S i)); [|lia]. reflexivity.
        -- rewrite andb_false_r.
           rewrite nth_overflow by (rewrite length_upd; lia).
           rewrite nth_overflow by lia. reflexivity.
      * rewrite nth_upd_other by exact Ni. rewrite IHn.
        destruct (Nat.ltb_spec i n), (Nat.ltb_spec i (S n)); try lia; reflexivity.
Qed.

Lemma mpsc_make_inv (c : Z) (q0 : MPSCQ T) :
  0 <= c < 2 ^ 64 -> make dflt c = Constructed q0 ->
  good c /\ Inv dflt c q0 [] [].
Proof.
  intros Hc. unfold make.
  destruct (rejected_by_mask c) eqn:G; [discriminate|].
  intros [= <-]. apply mask_guard_iff in G; [|exact Hc].
  pose proof (good_range c G) as Hr. split; [exact G|].
  destruct (init_sequences_spec (Z.to_nat c) (repeat (cell0 T dflt) (Z.to_nat c)))
    as [Hl Hn].
  rewrite repeat_length in Hl, Hn.
  constructor; simpl; auto; try lia.
  - intros j Hj. rewrite Z.mod_small by lia.
    unfold at_. rewrite Hn.
    destruct (Nat.ltb_spec (Z.to_nat j) (Z.to_nat c)); [|lia]. simpl.
    rewrite wrap_small by lia. lia.
Qed.

Lemma mpsc_push_inv (c : Z) (q : MPSCQ T) (acc pop : list T) (v : T) (fuel : nat) :
  good c -> Inv dflt c q acc pop ->
  (len acc = len pop + c /\ push dflt (S fuel) v q = Some (false, q)) \/
  (len acc < len pop + c /\ exists q', push dflt (S fuel) v q = Some (true, q') /\
      Inv dflt c q' (acc ++ [v]) pop).
Proof.
  intros Hc [Hcap Hmask Hlen Hh Ht Hb Hp Htk Hfr].
  pose proof (good_range c Hc) as Hrg.
  unfold push, emplace_impl. simpl claim_loop.
  rewrite Hmask, Hh, land_mask, wrap_mod by exact Hc.
  destruct (Z.eq_dec (len acc) (len pop + c)) as [E|N].
  - left. split; [exact E|].
    assert (len acc mod c = len pop mod c) as Em
      by (rewrite E; apply mod_add_cap; lia).
    rewrite Em, Htk by lia. simpl sequence.
    rewrite sdiff_near by lia.
    destruct (Z.eqb_spec (len pop + 1 - len acc) 0); [lia|].
    destruct (Z.ltb_spec (len pop + 1 - len acc) 0); [|lia]. reflexivity.
  - right. split; [lia|].
    rewrite Hfr by lia. rewrite sdiff_near by lia.
    rewrite Z.sub_diag, Z.eqb_refl, Z.eqb_refl. simpl.
    rewrite Hmask, land_mask, wrap_mod, wrap_wrap_add by exact Hc.
    eexists; split; [reflexivity|].
    pose proof (Z.mod_pos_bound (len acc) c ltac:(lia)) as Hwb.
    constructor; simpl; rewrite ?length_set, ?length_app; simpl; auto; try lia.
    + f_equal. lia.
    + rewrite firstn_app_left by lia. exact Hp.
    + intros j Hj.
      destruct (Z.eq_dec j (len acc)) as [->|Nj].
      * rewrite at_set_same by lia. rewrite Nat2Z.id, nth_middle. reflexivity.
      * pose proof (Z.mod_pos_bound j c ltac:(lia)).
        rewrite at_set_other; try lia.
        -- rewrite Htk by lia. rewrite app_nth1 by lia. reflexivity.
        -- intros E. apply window_inj in E; lia.
    + intros j Hj.
      pose proof (Z.mod_pos_bound j c ltac:(lia)).
      rewrite at_set_other; try lia.
      * apply Hfr. lia.
      * intros E. apply window_inj in E; lia.
Qed.

Lemma mpsc_pop_inv (c : Z) (q : MPSCQ T) (acc pop : list T) :
  good c -> Inv dflt c q acc pop ->
  (len acc = len pop /\ MPSC.pop dflt q = (None, q)) \/
  (len pop < len acc /\ exists q',
      MPSC.pop dflt q = (Some (nth (length pop) acc dflt), q') /\
      Inv dflt c q' acc (pop ++ [nth (length pop) acc dflt])).
Proof.
  intros Hc [Hcap Hmask Hlen Hh Ht Hb Hp Htk Hfr].
  pose proof (good_range c Hc) as Hrg.
  unfold MPSC.pop, pop_impl.
  rewrite Hmask, Hcap, Ht, land_mask, wrap_mod, !wrap_wrap_add by exact Hc.
  destruct (Z.eq_dec (len acc) (len pop)) as [E|N].
  - left. split; [exact E|].
    rewrite Hfr by lia. rewrite sdiff_near by lia.
    destruct (Z.ltb_spec (len pop - (len pop + 1)) 0); [|lia]. reflexivity.
  - right. split; [lia|].
    rewrite Htk by lia. simpl sequence. simpl value.
    rewrite sdiff_near by lia.
    destruct (Z.ltb_spec (len pop + 1 - (len pop + 1)) 0); [lia|].
    rewrite Nat2Z.id.
    eexists; split; [reflexivity|].
    pose proof (Z.mod_pos_bound (len pop) c ltac:(lia)) as Hwb.
    constructor; simpl; rewrite ?length_set, ?length_app; simpl; auto; try lia.
    + f_equal. lia.
    + replace (length pop + 1)%nat with (S (length pop)) by lia.
      rewrite (firstn_snoc_nth dflt) by lia. rewrite <- Hp. reflexivity.
    + intros j Hj.
      pose proof (Z.mod_pos_bound j c ltac:(lia)).
      rewrite at_set_other; try lia.
      * apply Htk. lia.
      * intros E. apply window_inj in E; lia.
    + intros j Hj.
      pose proof (Z.mod_pos_bound j c ltac:(lia)).
      destruct (Z.eq_dec j (len pop + c)) as [->|Nj].
      * rewrite mod_add_cap by lia. rewrite at_set_same by lia. reflexivity.
      * rewrite at_set_other; try lia.
        -- apply Hfr. lia.
        -- intros E. apply window_inj in E; lia.
Qed.

Lemma mpsc_size_inv (c : Z) (q : MPSCQ T) (acc pop : list T) :
  good c -> Inv dflt c q acc pop -> size q = len acc - len pop.
Proof.
  intros Hc [Hcap Hmask Hlen Hh Ht Hb Hp Htk Hfr].
  pose proof (good_range c Hc).
  unfold size. rewrite Hh, Ht, wrap_sub_wrap. apply wrap_small. lia.
Qed.

Lemma mpsc_full_inv (c : Z) (q : MPSCQ T) (acc pop : list T) :
  good c -> Inv dflt c q acc pop -> (full q = true <-> len acc = len pop + c).
Proof.
  intros Hc HI. pose proof (mpsc_size_inv c q acc pop Hc HI) as Hs.
  destruct HI as [Hcap Hmask Hlen Hh Ht Hb Hp Htk Hfr].
  unfold full. rewrite Hs, Hcap, Z.leb_le. lia.
Qed.

(** One iteration of the claim loop is enough when no other thread runs:
    every history runs to its end, and keeps the invariant. *)
Lemma mpsc_run_inv (c : Z) (fuel : nat) (ops : list (op T)) :
  good c -> forall (q : MPSCQ T) (acc pop : list T),
  Inv dflt c q acc pop ->
  exists es q',
    run dflt (S fuel) ops q = Some (es, q') /\
    Inv dflt c q' (acc ++ accepted es) (pop ++ popped es).
Proof.
  intros Hc. induction ops as [|o ops IH]; intros q acc pop HI.
  - exists [], q. simpl. rewrite !app_nil_r. auto.
  - unfold run; fold (run dflt (S fuel)). unfold step at 1. destruct o as [v|].
    + destruct (mpsc_push_inv c q acc pop v fuel Hc HI)
        as [(_ & E) | (_ & q' & E & HI')]; rewrite E.
      * destruct (IH q acc pop HI) as (es & q'' & R & HI'').
        rewrite R. exists (Pushed v false :: es), q''. split; [reflexivity|].
        exact HI''.
      * destruct (IH q' _ pop HI') as (es & q'' & R & HI'').
        rewrite R. exists (Pushed v true :: es), q''. split; [reflexivity|].
        simpl. rewrite <- app_assoc in HI''. exact HI''.
    + destruct (mpsc_pop_inv c q acc pop Hc HI)
        as [(_ & E) | (_ & q' & E & HI')]; rewrite E.
      * destruct (IH q acc pop HI) as (es & q'' & R & HI'').
        rewrite R. exists (Popped None :: es), q''. split; [reflexivity|].
        exact HI''.
      * destruct (IH q' acc _ HI') as (es & q'' & R & HI'').
        rewrite R. eexists (Popped (Some _) :: es), q''. split; [reflexivity|].
        simpl. rewrite <- app_assoc in HI''. exact HI''.
Qed.

Lemma mpsc_drain (c : Z) (fuel n : nat) :
  good c -> forall (q : MPSCQ T) (acc pop : list T),
  Inv dflt c q acc pop -> length acc = (length pop + n)%nat ->
  exists es q',
    run dflt (S fuel) (repeat Pop n) q = Some (es, q') /\
    pop ++ popped es = acc.
Proof.
  intros Hc. induction n as [|n IH]; intros q acc pop HI Hn.
  - exists [], q. split; [reflexivity|]. simpl. rewrite app_nil_r.
    rewrite (inv_prefix HI).
    replace (length pop) with (length acc) by lia. apply firstn_all.
  - destruct (mpsc_pop_inv c q acc pop Hc HI)
      as [(E & _) | (_ & q' & E & HI')]; [lia|].
    destruct (IH q' acc _ HI') as (es & q'' & R & Hd).
    { rewrite length_app. simpl. lia. }
    exists (Popped (Some (nth (length pop) acc dflt)) :: es), q''.
    split.
    + change (repeat Pop (S n)) with (@Pop T :: repeat Pop n).
      unfold run; fold (run dflt (S fuel)). unfold step at 1.
      rewrite E, R. reflexivity.
    + simpl. rewrite <- app_assoc in Hd. exact Hd.
Qed.

Lemma mpsc_reachable_inv (c : Z) (q0 : MPSCQ T) (fuel : nat) (ops : list (op T)) :
  0 <= c < 2 ^ 64 -> make dflt c = Constructed q0 ->
  good c /\
  exists es q,
    run dflt (S fuel) ops q0 = Some (es, q) /\
    Inv dflt c q (accepted es) (popped es).
Proof.
  intros Hc Hm. destruct (mpsc_make_inv c q0 Hc Hm) as [Hg HI].
  split; [exact Hg|]. apply (mpsc_run_inv c fuel ops Hg q0 [] [] HI).
Qed.

End MPSC_correct.

(** A queue of capacity 2 takes two values (no slot is kept free, unlike
    SPSC), refuses the third, and hands the values out in order. *)
Example mpsc_fills_to_capacity :
  exists q0 : MPSC.MPSCQ Z,
    MPSC.make 0 2 = Capacity.Constructed q0 /\
    option_map fst
      (MPSC.run 0 1
         [History.Push 5; History.Push 6; History.Push 7; History.Pop; History.Pop;
          History.Pop] q0) =
    Some [History.Pushed 5 true; History.Pushed 6 true; History.Pushed 7 false;
          History.Popped (Some 5); History.Popped (Some 6); History.Popped None].
Proof.
  exists (MPSC.mkMPSCQ 2 1 [MPSC.mkCell 0 0; MPSC.mkCell 1 0] 0 0).
  split; vm_compute; reflexivity.
Qed.

(** C8 (MPSC, one thread at a time).  From a freshly constructed queue,
    every history of pushes and pops runs to its end (one iteration of the
    claim loop suffices), and then: the popped values are, in order, the
    first of the accepted values, so each popped value was pushed and none
    is handed out twice; the number of successful pushes equals the number
    of successful pops plus [size()]; a push returns false exactly when
    the queue is full and then leaves the queue as it was; and [size()]
    further pops hand out every accepted value not yet popped. *)
Theorem mpsc_conservation (T : Type) (dflt : T) (c : Z) (q0 : MPSC.MPSCQ T)
    (ops : list (History.op T)) (fuel : nat) :
  0 <= c < 2 ^ 64 ->
  MPSC.make dflt c = Capacity.Constructed q0 ->
  exists (es : list (History.event T)) (q : MPSC.MPSCQ T),
    MPSC.run dflt (S fuel) ops q0 = Some (es, q) /\
    History.popped es = firstn (length (History.popped es)) (History.accepted es) /\
    Z.of_nat (length (History.accepted es)) =
      Z.of_nat (length (History.popped es)) + MPSC.size q /\
    (forall v : T, exists (ok : bool) (q' : MPSC.MPSCQ T),
        MPSC.push dflt (S fuel) v q = Some (ok, q') /\
        (ok = false <-> MPSC.full q = true) /\
        (ok = false -> q' = q)) /\
    (exists (es' : list (History.event T)) (q' : MPSC.MPSCQ T),
        MPSC.run dflt (S fuel) (repeat History.Pop (Z.to_nat (MPSC.size q))) q =
          Some (es', q') /\
        History.popped es ++ History.popped es' = History.accepted es).
Proof.
  intros Hc Hm.
  destruct (mpsc_reachable_inv T dflt c q0 fuel ops Hc Hm)
    as (Hg & es & q & R & HI).
  pose proof (good_range c Hg) as Hr.
  pose proof (mpsc_size_inv T dflt c q _ _ Hg HI) as Hsz.
  pose proof (mpsc_full_inv T dflt c q _ _ Hg HI) as Hfull.
  pose proof (MPSC.inv_bound HI) as Hb.
  exists es, q. split; [exact R|].
  split; [exact (MPSC.inv_prefix HI)|].
  split; [lia|]. split.
  - intros v.
    destruct (mpsc_push_inv T dflt c q _ _ v fuel Hg HI)
      as [(E & P) | (E & q' & P & _)]; rewrite P.
    + exists false, q. rewrite Hfull. repeat split; auto.
    + exists true, q'. rewrite Hfull.
      repeat split; try discriminate; intros; lia.
  - apply (mpsc_drain T dflt c fuel _ Hg q _ _ HI). lia.
Qed.

Lemma mpsc_conservation_witness :
  exists (es : list (History.event Z)) (q : MPSC.MPSCQ Z),
    MPSC.run 0 1
      [History.Push 5; History.Push 6; History.Push 7; History.Pop; History.Push 8]
      (MPSC.mkMPSCQ 2 1 [MPSC.mkCell 0 0; MPSC.mkCell 1 0] 0 0) = Some (es, q) /\
    History.popped es = firstn (length (History.popped es)) (History.accepted es) /\
    Z.of_nat (length (History.accepted es)) =
      Z.of_nat (length (History.popped es)) + MPSC.size q /\
    (forall v : Z, exists (ok : bool) (q' : MPSC.MPSCQ Z),
        MPSC.push 0 1 v q = Some (ok, q') /\
        (ok = false <-> MPSC.full q = true) /\
        (ok = false -> q' = q)) /\
    (exists (es' : list (History.event Z)) (q' : MPSC.MPSCQ Z),
        MPSC.run 0 1 (repeat History.Pop (Z.to_nat (MPSC.size q))) q =
          Some (es', q') /\
        History.popped es ++ History.popped es' = History.accepted es).
Proof.
  apply (mpsc_conservation Z 0 2); [lia | vm_compute; reflexivity].
Defined.

(* ================================================================== *)
(** * SPMC: the ring, its producer and its consumers                    *)
(* ================================================================== *)

Section MoreArrays.
Context {A : Type}.

Lemma nth_error_upd_same (l : list A) (i : nat) (x : A) :
  (i < length l)%nat -> nth_error (upd l i x) i = Some x.
Proof.
  revert i; induction l as [|h t IH]; intros [|i] H; simpl in *; try lia; auto.
  apply IH. lia.
Qed.

Lemma nth_error_upd_other (l : list A) (i j : nat) (x : A) :
  i <> j -> nth_error (upd l i x) j = nth_error l j.
Proof.
  revert i j; induction l as [|h t IH]; intros [|i] [|j] H; simpl; auto; congruence.
Qed.

Lemma skipn_cons_nth (d : A) (l : list A) (n : nat) :
  (n < length l)%nat -> skipn n l = nth n l d :: skipn (S n) l.
Proof.
  revert n; induction l as [|h t IH]; intros [|n] H; simpl in *; try lia; auto.
  apply IH. lia.
Qed.

Lemma at_repeat (d x : A) (n : nat) (i : Z) :
  0 <= i < Z.of_nat n -> at_ d (repeat x n) i = x.
Proof.
  intros H. unfold at_. apply nth_repeat_lt. lia.
Qed.

End MoreArrays.

Section Versions.
Import Word.

Lemma wrap32_small (x : Z) : 0 <= x < 2 ^ 32 -> wrap32 x = x.
Proof. intros H. unfold wrap32. apply Z.mod_small, H. Qed.

Lemma wrap32_succ (x : Z) : wrap32 (wrap32 x + 1) = wrap32 (x + 1).
Proof. unfold wrap32. apply Z.add_mod_idemp_l. lia. Qed.

Lemma wrap32_keep (x : Z) : wrap32 (wrap32 x + 0) = wrap32 x.
Proof. unfold wrap32. rewrite Z.add_0_r. apply Z.mod_mod. lia. Qed.

(** The version a handle at position [n] moves to. *)
Lemma next_version (c n : Z) :
  Capacity.good c -> 0 <= n ->
  wrap32 (wrap32 (n / c) + of_bool (wrap (n mod c + 1) =? c)) = wrap32 ((n + 1) / c).
Proof.
  intros Hc Hn. pose proof (good_range c Hc) as Hr.
  pose proof (Z.mod_pos_bound n c ltac:(lia)) as Hb.
  rewrite wrap_small by lia.
  destruct (Z.eqb_spec (n mod c + 1) c) as [E|N]; simpl of_bool.
  - destruct (mod_succ_wrap c n ltac:(lia) E) as [_ ->]. apply wrap32_succ.
  - destruct (mod_succ_nowrap c n ltac:(lia) N) as [_ ->]. apply wrap32_keep.
Qed.

(** The last position before [n] that falls on the slot of [m]. *)
Lemma last_on_slot (c n m : Z) :
  0 < c -> m < n ->
  let j := n - 1 - (n - 1 - m) mod c in
  j mod c = m mod c /\ n - c <= j < n /\ j / c = m / c + (n - 1 - m) / c.
Proof.
  intros Hc Hm j.
  pose proof (Z.mod_pos_bound (n - 1 - m) c Hc) as Hb.
  pose proof (Z.div_mod (n - 1 - m) c ltac:(lia)) as Hd.
  assert (j = m + (n - 1 - m) / c * c) as Ej by (unfold j; lia).
  split; [|split].
  - rewrite Ej. apply Z.mod_add. lia.
  - unfold j. lia.
  - rewrite Ej. apply Z.div_add. lia.
Qed.

End Versions.

Section SPMC_correct.
Import Word Capacity SPMCSystem.
Variable T : Type.
Variable dflt : T.

Local Abbreviation len l := (Z.of_nat (length l)).

Lemma ring_make (c : Z) (q0 : SPMC.SPMCQ T) :
  0 <= c < 2 ^ 64 -> SPMC.make dflt c = Constructed q0 ->
  good c /\ RingInv dflt c q0 (SPMCProducer.getProducer q0) [].
Proof.
  intros Hc. unfold SPMC.make.
  destruct (rejected_by_bitset c) eqn:G; [discriminate|].
  intros [= <-]. apply bitset_guard_iff in G; [|exact Hc].
  pose proof (good_range c G) as Hr. split; [exact G|].
  constructor; simpl; rewrite ?repeat_length, ?Z.mod_0_l, ?Z.div_0_l; auto; try lia.
  intros i Hi. apply at_repeat. lia.
Qed.

(** A push moves the ring and the producer from position [n] to [n + 1]. *)
Lemma ring_push (c : Z) (q : SPMC.SPMCQ T) (p : SPMCProducer.t) (hist : list T) (v : T) :
  good c -> RingInv dflt c q p hist ->
  RingInv dflt c (snd (fst (SPMCProducer.push v q p))) (snd (SPMCProducer.push v q p))
          (hist ++ [v]).
Proof.
  intros Hc [Hcap Hpcap Hlen Hrd Hwr Hwi Hwv Hsl Hfr].
  pose proof (good_range c Hc) as Hr.
  pose proof (Z.mod_pos_bound (len hist) c ltac:(lia)) as Hb.
  assert (SPMCProducer.nxtWriteIdx p = (len hist + 1) mod c) as Enx.
  { unfold SPMCProducer.nxtWriteIdx. rewrite Hpcap, Hwi. apply next_index, Hc. }
  assert (len (hist ++ [v]) = len hist + 1) as El
    by (rewrite length_app; simpl; lia).
  constructor; simpl; rewrite ?length_set, ?El; auto.
  - unfold SPMCProducer.nxtVersion. rewrite Hpcap, Hwi, Hwv.
    apply next_version; [exact Hc | lia].
  - intros j Hj0 Hj. rewrite Hwi.
    destruct (Z.eq_dec j (len hist)) as [->|Nj].
    + rewrite at_set_same by lia. rewrite Nat2Z.id, nth_middle, Hwv. reflexivity.
    + pose proof (Z.mod_pos_bound j c ltac:(lia)).
      rewrite at_set_other; try lia.
      * rewrite Hsl by lia. rewrite app_nth1 by lia. reflexivity.
      * intros E. apply window_inj in E; lia.
  - intros i Hi. rewrite Hwi.
    rewrite Z.mod_small in * by lia.
    rewrite at_set_other by lia. apply Hfr. lia.
Qed.

Lemma ring_push_all (c : Z) (vs : list T) :
  good c -> forall (q : SPMC.SPMCQ T) (p : SPMCProducer.t) (hist : list T),
  RingInv dflt c q p hist ->
  RingInv dflt c (fst (SPMCProducer.push_all vs q p)) (snd (SPMCProducer.push_all vs q p))
          (hist ++ vs).
Proof.
  intros Hc. induction vs as [|v vs IH]; intros q p hist HI.
  - simpl. rewrite app_nil_r. exact HI.
  - pose proof (ring_push c q p hist v Hc HI) as HI'.
    apply IH in HI'. rewrite <- app_assoc in HI'. exact HI'.
Qed.

(** A handle created by [getConsumer] stands at position 0. *)
Lemma getConsumer_at (c : Z) (q : SPMC.SPMCQ T) :
  0 < c -> SPMC.capacity_ q = c -> At c (SPMCConsumer.getConsumer q) 0.
Proof.
  intros Hc Hcap. constructor; simpl; auto; lia.
Qed.

(** A pop by a consumer less than a lap behind the producer. *)
Lemma pop_in_sync (c : Z) (q : SPMC.SPMCQ T) (p : SPMCProducer.t) (hist : list T)
    (h : SPMCConsumer.t) (m : Z) :
  good c -> RingInv dflt c q p hist -> At c h m ->
  m <= len hist < m + c ->
  (m = len hist /\ SPMCConsumer.pop dflt q h = (SPMCConsumer.Empty, h)) \/
  (m < len hist /\ exists h',
      SPMCConsumer.pop dflt q h = (SPMCConsumer.Popped (nth (Z.to_nat m) hist dflt), h') /\
      At c h' (m + 1)).
Proof.
  intros Hc [Hcap Hpcap Hlen Hrd Hwr Hwi Hwv Hsl Hfr] [Hhc Hm0 Hhi Hhv] Hw.
  pose proof (good_range c Hc) as Hr.
  unfold SPMCConsumer.pop. rewrite Hhi, Hrd, Hhv, Hhc.
  destruct (Z.eqb_spec (m mod c) (len hist mod c)) as [E|N].
  - left. apply window_inj in E; [|lia|lia]. auto.
  - right. assert (m < len hist) as Hlt.
    { destruct (Z.eq_dec m (len hist)) as [->|]; [congruence | lia]. }
    split; [exact Hlt|].
    rewrite Hsl by lia. simpl SPMC.version. simpl SPMC.data.
    rewrite Z.eqb_refl. simpl negb. cbv iota.
    eexists; split; [reflexivity|].
    constructor; simpl; auto; try lia.
    + apply next_index, Hc.
    + apply next_version; [exact Hc | lia].
Qed.

(** A pop by a consumer a lap or more behind: it finds the ring empty when
    it is behind by whole laps, and otherwise a slot of a later lap. *)
Lemma pop_lapped (c : Z) (q : SPMC.SPMCQ T) (p : SPMCProducer.t) (hist : list T)
    (h : SPMCConsumer.t) (m : Z) :
  good c -> RingInv dflt c q p hist -> At c h m ->
  m + c <= len hist -> len hist < c * 2 ^ 32 ->
  (m mod c = len hist mod c /\ SPMCConsumer.pop dflt q h = (SPMCConsumer.Empty, h)) \/
  (m mod c <> len hist mod c /\
   SPMCConsumer.pop dflt q h = (SPMCConsumer.Overlapped (m mod c), h)).
Proof.
  intros Hc [Hcap Hpcap Hlen Hrd Hwr Hwi Hwv Hsl Hfr] [Hhc Hm0 Hhi Hhv] Hlap Hbig.
  pose proof (good_range c Hc) as Hr.
  unfold SPMCConsumer.pop. rewrite Hhi, Hrd, Hhv.
  destruct (Z.eqb_spec (m mod c) (len hist mod c)) as [E|N]; [left; auto|].
  right. split; [exact N|].
  destruct (last_on_slot c (len hist) m ltac:(lia) ltac:(lia)) as (Ej & Hj & Ed).
  set (j := len hist - 1 - (len hist - 1 - m) mod c) in *.
  rewrite <- Ej, Hsl by lia. simpl SPMC.version.
  assert (1 <= (len hist - 1 - m) / c) as Hk.
  { apply Z.div_le_lower_bound; [lia|].
    destruct (Z.eq_dec (len hist) (m + c)) as [Em|]; [|lia].
    exfalso. apply N. rewrite Em. symmetry. apply mod_add_cap. lia. }
  assert (0 <= m / c) by (apply Z.div_pos; lia).
  assert (j / c < 2 ^ 32) by (apply Z.div_lt_upper_bound; lia).
  rewrite !wrap32_small by lia.
  destruct (Z.eqb_spec (j / c) (m / c)); [lia|]. reflexivity.
Qed.

(** What a pop can do, whatever the distance to the producer. *)
Lemma pop_sound (c : Z) (q : SPMC.SPMCQ T) (p : SPMCProducer.t) (hist : list T)
    (h : SPMCConsumer.t) (m : Z) :
  good c -> RingInv dflt c q p hist -> At c h m ->
  m <= len hist -> len hist < c * 2 ^ 32 ->
  match SPMCConsumer.pop dflt q h with
  | (SPMCConsumer.Popped v, h') =>
      m < len hist /\ v = nth (Z.to_nat m) hist dflt /\ At c h' (m + 1)
  | (_, h') => h' = h
  end.
Proof.
  intros Hc HR HA Hm Hbig. pose proof (good_range c Hc).
  destruct (Z_lt_le_dec (len hist) (m + c)) as [Hnear|Hfar].
  - destruct (pop_in_sync c q p hist h m Hc HR HA ltac:(lia))
      as [(_ & E) | (Hlt & h' & E & HA')]; rewrite E; auto.
  - destruct (pop_lapped c q p hist h m Hc HR HA Hfar Hbig)
      as [(_ & E) | (_ & E)]; rewrite E; auto.
Qed.

(** Its pops hand a consumer in sync everything between it and the
    producer. *)
Lemma pop_n_in_sync (c : Z) (q : SPMC.SPMCQ T) (p : SPMCProducer.t) (hist : list T)
    (k : nat) :
  good c -> RingInv dflt c q p hist ->
  forall (h : SPMCConsumer.t) (m : nat),
  At c h (Z.of_nat m) -> length hist = (m + k)%nat -> Z.of_nat k < c ->
  fst (SPMCConsumer.pop_n dflt k q h) = map SPMCConsumer.Popped (skipn m hist).
Proof.
  intros Hc HR. induction k as [|k IH]; intros h m HA Hn Hk.
  - simpl. rewrite skipn_all2 by lia. reflexivity.
  - simpl.
    destruct (pop_in_sync c q p hist h (Z.of_nat m) Hc HR HA ltac:(lia))
      as [(E & _) | (_ & h' & E & HA')]; [lia|].
    rewrite E, Nat2Z.id.
    replace (Z.of_nat m + 1) with (Z.of_nat (S m)) in HA' by lia.
    specialize (IH h' (S m) HA' ltac:(lia) ltac:(lia)).
    destruct (SPMCConsumer.pop_n dflt k q h') as [rs h'']. simpl in *.
    rewrite IH. rewrite (skipn_cons_nth dflt hist m) by lia. reflexivity.
Qed.

Lemma pushed_app (es es' : list (event T)) :
  pushed (es ++ es') = pushed es ++ pushed es'.
Proof. apply flat_map_app. Qed.

Lemma popped_by_app (i : nat) (es es' : list (event T)) :
  popped_by i (es ++ es') = popped_by i es ++ popped_by i es'.
Proof. apply flat_map_app. Qed.

Lemma overlapped_app (i : nat) (es es' : list (event T)) :
  overlapped i (es ++ es') = overlapped i es || overlapped i es'.
Proof. apply existsb_app. Qed.

Lemma step_push (v : T) (s : state T) :
  step dflt (Push v) s =
  ([Pushed v],
   mkState (snd (fst (SPMCProducer.push v (queue s) (producer s))))
           (snd (SPMCProducer.push v (queue s) (producer s)))
           (consumers s)).
Proof. reflexivity. Qed.

Lemma step_pop (k : nat) (s : state T) (h : SPMCConsumer.t) :
  nth_error (consumers s) k = Some h ->
  step dflt (Pop k) s =
  ([PopReturned k (fst (SPMCConsumer.pop dflt (queue s) h))],
   mkState (queue s) (producer s)
           (upd (consumers s) k (snd (SPMCConsumer.pop dflt (queue s) h)))).
Proof.
  intros E. unfold step. rewrite E.
  destruct (SPMCConsumer.pop dflt (queue s) h); reflexivity.
Qed.

Lemma step_pop_nobody (k : nat) (s : state T) :
  nth_error (consumers s) k = None -> step dflt (Pop k) s = ([], s).
Proof. intros E. unfold step. rewrite E. reflexivity. Qed.

Lemma step_get (s : state T) :
  step dflt GetConsumer s =
  ([Created (length (consumers s))],
   mkState (queue s) (producer s)
           (consumers s ++ [SPMCConsumer.getConsumer (queue s)])).
Proof. reflexivity. Qed.

Lemma popped_by_other (i k : nat) (r : SPMCConsumer.result T) :
  k <> i -> popped_by i [PopReturned k r] = [] /\ overlapped i [PopReturned k r] = false.
Proof.
  intros N. unfold popped_by, overlapped. simpl.
  destruct (Nat.eqb_spec k i); [contradiction|]. destruct r; auto.
Qed.

(** One call keeps [Follows], extended by the events of the call. *)
Lemma follows_step (c : Z) (i : nat) (o : op T) (s : state T) (hist pop : list T)
    (ovl : bool) :
  good c -> Follows dflt c s hist i pop ovl ->
  len (hist ++ pushed (fst (step dflt o s))) < c * 2 ^ 32 ->
  Follows dflt c (snd (step dflt o s)) (hist ++ pushed (fst (step dflt o s))) i
          (pop ++ popped_by i (fst (step dflt o s)))
          (ovl || overlapped i (fst (step dflt o s))).
Proof.
  intros Hc [HR HF] Hbig. pose proof (good_range c Hc) as Hr.
  destruct o as [v | k | ].
  - (* Push *)
    rewrite step_push in *. cbn [fst snd] in *.
    change (pushed [Pushed v]) with [v] in *.
    change (popped_by i [Pushed v]) with (@nil T).
    change (overlapped i [Pushed v]) with false.
    rewrite app_nil_r, orb_false_r.
    split; cbn [queue producer consumers]; [apply ring_push; assumption|].
    destruct (nth_error (consumers s) i) as [h|]; [|exact HF].
    destruct HF as (m & HA & Hm & Hp). exists m.
    rewrite length_app. cbn [length]. split; [exact HA|]. split; [lia|].
    intros Ho. rewrite firstn_app_left by lia. auto.
  - (* Pop k *)
    destruct (nth_error (consumers s) k) as [hk|] eqn:Ek.
    + rewrite (step_pop k s hk Ek) in *. cbn [fst snd] in *.
      change (pushed [PopReturned k (fst (SPMCConsumer.pop dflt (queue s) hk))])
        with (@nil T) in *.
      rewrite app_nil_r in *.
      split; cbn [queue producer consumers]; [exact HR|].
      destruct (Nat.eq_dec k i) as [->|Nk].
      * rewrite Ek in HF. destruct HF as (m & HA & Hm & Hp).
        assert (i < length (consumers s))%nat as Hi
          by (apply nth_error_Some; congruence).
        pose proof (pop_sound c _ _ hist hk (Z.of_nat m) Hc HR HA ltac:(lia) Hbig) as Hs.
        rewrite nth_error_upd_same by exact Hi.
        unfold popped_by, overlapped. cbn [flat_map existsb popped_of overlap_of].
        destruct (SPMCConsumer.pop dflt (queue s) hk) as [r h'] eqn:Ep.
        cbn [fst snd]. rewrite Nat.eqb_refl.
        destruct r as [x | | idx].
        -- destruct Hs as (Hlt & -> & HA'). exists (S m).
           replace (Z.of_nat (S m)) with (Z.of_nat m + 1) by lia.
           split; [exact HA'|]. split; [lia|].
           rewrite orb_false_r, app_nil_r. intros Ho. rewrite (Hp Ho), Nat2Z.id.
           symmetry. apply firstn_snoc_nth. lia.
        -- subst h'. exists m. rewrite app_nil_r, orb_false_r. auto.
        -- subst h'. exists m. rewrite app_nil_r. cbn [orb]. rewrite orb_true_r.
           split; [exact HA|]. split; [exact Hm|]. discriminate.
      * rewrite nth_error_upd_other by exact Nk.
        destruct (popped_by_other i k (fst (SPMCConsumer.pop dflt (queue s) hk)) Nk)
          as [-> ->].
        rewrite app_nil_r, orb_false_r. exact HF.
    + rewrite (step_pop_nobody k s Ek). cbn [fst snd].
      change (pushed (@nil (event T))) with (@nil T).
      change (popped_by i (@nil (event T))) with (@nil T).
      change (overlapped i (@nil (event T))) with false.
      rewrite !app_nil_r, orb_false_r. split; assumption.
  - (* GetConsumer *)
    rewrite step_get. cbn [fst snd].
    change (pushed [Created (length (consumers s))]) with (@nil T).
    change (popped_by i [Created (length (consumers s))]) with (@nil T).
    change (overlapped i [Created (length (consumers s))]) with false.
    rewrite !app_nil_r, orb_false_r.
    split; cbn [queue producer consumers]; [exact HR|].
    destruct (nth_error (consumers s) i) as [h|] eqn:Ei.
    + rewrite nth_error_app1 by (apply nth_error_Some; congruence).
      rewrite Ei. exact HF.
    + apply nth_error_None in Ei. destruct HF as [-> ->].
      destruct (Nat.eq_dec i (length (consumers s))) as [->|Ni].
      * rewrite nth_error_app2, Nat.sub_diag by lia. cbn [nth_error].
        exists O. split.
        -- apply getConsumer_at; [lia|]. apply (ring_cap _ _ _ _ _ _ HR).
        -- split; [lia|]. reflexivity.
      * rewrite nth_error_app2 by lia.
        destruct (i - length (consumers s))%nat as [|d] eqn:Ed; [lia|].
        cbn [nth_error]. destruct d; cbn [nth_error]; auto.
Qed.

Lemma run_cons (o : op T) (ops : list (op T)) (s : state T) :
  run dflt (o :: ops) s =
  (fst (step dflt o s) ++ fst (run dflt ops (snd (step dflt o s))),
   snd (run dflt ops (snd (step dflt o s)))).
Proof.
  cbn [run]. destruct (step dflt o s) as [es s'].
  cbn [fst snd]. destruct (run dflt ops s'); reflexivity.
Qed.

Lemma follows_run (c : Z) (i : nat) (ops : list (op T)) :
  good c -> forall (s : state T) (hist pop : list T) (ovl : bool),
  Follows dflt c s hist i pop ovl ->
  len (hist ++ pushed (fst (run dflt ops s))) < c * 2 ^ 32 ->
  Follows dflt c (snd (run dflt ops s)) (hist ++ pushed (fst (run dflt ops s))) i
          (pop ++ popped_by i (fst (run dflt ops s)))
          (ovl || overlapped i (fst (run dflt ops s))).
Proof.
  intros Hc. induction ops as [|o ops IH]; intros s hist pop ovl HF Hbig.
  - cbn [run fst snd].
    change (pushed (@nil (event T))) with (@nil T).
    change (popped_by i (@nil (event T))) with (@nil T).
    change (overlapped i (@nil (event T))) with false.
    rewrite !app_nil_r, orb_false_r. exact HF.
  - rewrite run_cons in *. cbn [fst snd] in *.
    rewrite pushed_app, popped_by_app, overlapped_app in *.
    rewrite !app_assoc, orb_assoc. rewrite app_assoc in Hbig.
    apply IH; [|exact Hbig].
    apply follows_step; [exact Hc | exact HF |].
    rewrite length_app in Hbig. lia.
Qed.

(** A pop touches the handle it is called on and nothing else. *)
Lemma pop_frame (s : state T) (i : nat) (h : SPMCConsumer.t) :
  nth_error (consumers s) i = Some h ->
  let s' := snd (step dflt (Pop i) s) in
  queue s' = queue s /\
  producer s' = producer s /\
  nth_error (consumers s') i = Some (snd (SPMCConsumer.pop dflt (queue s) h)) /\
  forall j : nat, j <> i -> nth_error (consumers s') j = nth_error (consumers s) j.
Proof.
  intros Hh s'. unfold s'. rewrite (step_pop i s h Hh). cbn [snd queue producer consumers].
  repeat split.
  - apply nth_error_upd_same. apply nth_error_Some. congruence.
  - intros j Nj. apply nth_error_upd_other. auto.
Qed.

(** The three ways a pop can end. *)
Lemma pop_case (q : SPMC.SPMCQ T) (h : SPMCConsumer.t) :
  let slot := at_ (SPMC.entry0 dflt) (SPMC.items_ q) (SPMCConsumer.lReadIdx h) in
  (SPMCConsumer.lReadIdx h = SPMC.mReadIndex q /\
   SPMCConsumer.pop dflt q h = (SPMCConsumer.Empty, h)) \/
  (SPMCConsumer.lReadIdx h <> SPMC.mReadIndex q /\
   SPMC.version slot <> SPMCConsumer.lVersion h /\
   SPMCConsumer.pop dflt q h = (SPMCConsumer.Overlapped (SPMCConsumer.lReadIdx h), h)) \/
  (SPMCConsumer.lReadIdx h <> SPMC.mReadIndex q /\
   SPMC.version slot = SPMCConsumer.lVersion h /\
   SPMCConsumer.pop dflt q h =
     (SPMCConsumer.Popped (SPMC.data slot),
      SPMCConsumer.mk
        (SPMCConsumer.capacity_ h)
        (Z.land (wrap (SPMCConsumer.lReadIdx h + 1)) (wrap (SPMCConsumer.capacity_ h - 1)))
        (wrap32 (SPMCConsumer.lVersion h +
                 of_bool (wrap (SPMCConsumer.lReadIdx h + 1) =? SPMCConsumer.capacity_ h))))).
Proof.
  intros slot. unfold SPMCConsumer.pop. fold slot.
  destruct (Z.eqb_spec (SPMCConsumer.lReadIdx h) (SPMC.mReadIndex q)) as [E|N];
    [left; auto|].
  destruct (Z.eqb_spec (SPMC.version slot) (SPMCConsumer.lVersion h)) as [Ev|Nv];
    cbn [negb]; [right; right | right; left]; auto.
Qed.

(** The ring invariant does not depend on what the consumers do. *)
Lemma ring_run (c : Z) (ops : list (op T)) :
  good c -> forall (s : state T) (hist : list T),
  RingInv dflt c (queue s) (producer s) hist ->
  RingInv dflt c (queue (snd (run dflt ops s))) (producer (snd (run dflt ops s)))
          (hist ++ pushed (fst (run dflt ops s))).
Proof.
  intros Hc. induction ops as [|o ops IH]; intros s hist HR.
  - cbn [run fst snd]. change (pushed (@nil (event T))) with (@nil T).
    rewrite app_nil_r. exact HR.
  - rewrite run_cons. cbn [fst snd]. rewrite pushed_app, app_assoc.
    apply IH. destruct o as [v | k | ].
    + rewrite step_push. cbn [fst snd queue producer].
      change (pushed [Pushed v]) with [v]. apply ring_push; assumption.
    + destruct (nth_error (consumers s) k) as [hk|] eqn:Ek.
      * rewrite (step_pop k s hk Ek). cbn [fst snd queue producer].
        change (pushed [PopReturned k (fst (SPMCConsumer.pop dflt (queue s) hk))])
          with (@nil T).
        rewrite app_nil_r. exact HR.
      * rewrite (step_pop_nobody k s Ek). cbn [fst snd].
        change (pushed (@nil (event T))) with (@nil T).
        rewrite app_nil_r. exact HR.
    + rewrite step_get. cbn [fst snd queue producer].
      change (pushed [Created (length (consumers s))]) with (@nil T).
      rewrite app_nil_r. exact HR.
Qed.

(** With both cursors on the same index the queue-level observers see an
    empty queue. *)
Lemma ring_observers (c : Z) (q : SPMC.SPMCQ T) (p : SPMCProducer.t) (hist : list T) :
  good c -> RingInv dflt c q p hist ->
  SPMC.mReadIndex q = SPMC.mWriteIndex q /\
  SPMC.mWriteIndex q = SPMCProducer.lWriteIdx p /\
  SPMC.empty q = true /\ SPMC.size q = 0 /\ SPMC.full q = false.
Proof.
  intros Hc [Hcap Hpcap Hlen Hrd Hwr Hwi Hwv Hsl Hfr].
  pose proof (good_range c Hc) as Hr.
  pose proof (Z.mod_pos_bound (len hist) c ltac:(lia)) as Hb.
  unfold SPMC.empty, SPMC.size, SPMC.full.
  rewrite Hcap, Hrd, Hwr, Hwi, Z.eqb_refl, Z.sub_diag, next_index by exact Hc.
  repeat split; auto.
  apply Z.eqb_neq. intros E. apply window_inj in E; lia.
Qed.

End SPMC_correct.

(** ** Scenarios of the test programs *)

(** [single_thread_smoke]: capacity 8; after pushes of 1, 2, 3 a consumer
    pops 1, 2, 3 and then finds the queue empty. *)
Example spmc_single_thread_smoke :
  let q0 := SPMC.mkSPMCQ 8 (repeat (SPMC.entry0 0) 8) 0 0 in
  let q := fst (SPMCProducer.push_all [1; 2; 3] q0 (SPMCProducer.getProducer q0)) in
  fst (SPMCConsumer.pop_n 0 4 q (SPMCConsumer.getConsumer q0)) =
  [SPMCConsumer.Popped 1; SPMCConsumer.Popped 2; SPMCConsumer.Popped 3;
   SPMCConsumer.Empty].
Proof. vm_compute. reflexivity. Qed.

(** [overlapping_consumer_does_not_break_others]: capacity 8 and 17 pushes;
    the consumer that keeps up pops all 17 values in order, the one that
    pops only afterwards fails with [Overlapped]. *)
Example spmc_overlapping_consumer :
  let q0 := SPMC.mkSPMCQ 8 (repeat (SPMC.entry0 0) 8) 0 0 in
  let values := map Z.of_nat (seq 0 17) in
  let ops := [SPMCSystem.GetConsumer; SPMCSystem.GetConsumer] ++
             flat_map (fun v => [SPMCSystem.Push v; SPMCSystem.Pop 0]) values ++
             [SPMCSystem.Pop 1] in
  let es := fst (SPMCSystem.run 0 ops (SPMCSystem.init q0)) in
  SPMCSystem.popped_by 0 es = values /\
  SPMCSystem.overlapped 0 es = false /\
  SPMCSystem.popped_by 1 es = [] /\
  SPMCSystem.overlapped 1 es = true.
Proof. vm_compute. repeat split; reflexivity. Qed.

(** C1, as stated, fails: after four pushes into a queue of capacity 2 the
    slot at the read index of a fresh handle stores version 1, not the
    handle's 0 -- yet [pop] returns false, because the published cursor is
    back on the handle's read index. *)
Lemma spmc_pop_overlap_counterexample :
  exists q0 : SPMC.SPMCQ Z,
    SPMC.make 0 2 = Capacity.Constructed q0 /\
    let q := fst (SPMCProducer.push_all [1; 2; 3; 4] q0 (SPMCProducer.getProducer q0)) in
    let h := SPMCConsumer.getConsumer q in
    SPMC.version (at_ (SPMC.entry0 0) (SPMC.items_ q) (SPMCConsumer.lReadIdx h)) = 1 /\
    SPMCConsumer.lVersion h = 0 /\
    SPMCConsumer.pop 0 q h = (SPMCConsumer.Empty, h).
Proof.
  exists (SPMC.mkSPMCQ 2 (repeat (SPMC.entry0 0) 2) 0 0).
  split; [vm_compute; reflexivity|]. repeat split; vm_compute; reflexivity.
Qed.

(** C1 (amended).  For a consumer handle of a valid capacity whose read
    index is in range: [pop] returns false exactly when the read index
    equals the published cursor; it fails with [Overlapped] exactly when
    the read index differs from the cursor and the slot there stores a
    version other than the expected one; in both cases the handle is left
    as it was.  Otherwise it returns the slot's value, advances the read
    index modulo the capacity and bumps the expected version exactly when
    the index wraps to 0.  A pop changes neither the ring, nor the
    producer, nor any other consumer. *)
Theorem spmc_pop_cases (T : Type) (dflt : T) (q : SPMC.SPMCQ T) (h : SPMCConsumer.t) :
  Capacity.good (SPMCConsumer.capacity_ h) ->
  0 <= SPMCConsumer.lReadIdx h < SPMCConsumer.capacity_ h ->
  0 <= SPMCConsumer.lVersion h < 2 ^ 32 ->
  let slot := at_ (SPMC.entry0 dflt) (SPMC.items_ q) (SPMCConsumer.lReadIdx h) in
  let r := fst (SPMCConsumer.pop dflt q h) in
  let h' := snd (SPMCConsumer.pop dflt q h) in
  (r = SPMCConsumer.Empty <-> SPMCConsumer.lReadIdx h = SPMC.mReadIndex q) /\
  ((exists idx, r = SPMCConsumer.Overlapped idx) <->
     SPMCConsumer.lReadIdx h <> SPMC.mReadIndex q /\
     SPMC.version slot <> SPMCConsumer.lVersion h) /\
  (r = SPMCConsumer.Empty \/ (exists idx, r = SPMCConsumer.Overlapped idx) -> h' = h) /\
  (SPMCConsumer.lReadIdx h <> SPMC.mReadIndex q ->
   SPMC.version slot = SPMCConsumer.lVersion h ->
     r = SPMCConsumer.Popped (SPMC.data slot) /\
     SPMCConsumer.capacity_ h' = SPMCConsumer.capacity_ h /\
     SPMCConsumer.lReadIdx h' =
       (SPMCConsumer.lReadIdx h + 1) mod SPMCConsumer.capacity_ h /\
     SPMCConsumer.lVersion h' =
       (if SPMCConsumer.lReadIdx h' =? 0
        then Word.wrap32 (SPMCConsumer.lVersion h + 1)
        else SPMCConsumer.lVersion h)) /\
  (forall (s : SPMCSystem.state T) (i : nat),
      SPMCSystem.queue s = q ->
      nth_error (SPMCSystem.consumers s) i = Some h ->
      let s' := snd (SPMCSystem.step dflt (SPMCSystem.Pop i) s) in
      SPMCSystem.queue s' = q /\
      SPMCSystem.producer s' = SPMCSystem.producer s /\
      nth_error (SPMCSystem.consumers s') i = Some h' /\
      forall j : nat, j <> i ->
        nth_error (SPMCSystem.consumers s') j = nth_error (SPMCSystem.consumers s) j).
Proof.
  intros Hg Hi Hv slot r h'.
  pose proof (good_range _ Hg) as Hr.
  pose proof (pop_case T dflt q h) as Hcase. cbv zeta in Hcase. fold slot in Hcase.
  split; [|split; [|split; [|split]]].
  - unfold r. destruct Hcase as [(E & ->) | [(N & Nv & ->) | (N & Ev & ->)]];
      cbn [fst]; split; intros; try discriminate; try contradiction; auto.
  - unfold r. destruct Hcase as [(E & ->) | [(N & Nv & ->) | (N & Ev & ->)]];
      cbn [fst]; split.
    + intros [idx Hx]. discriminate.
    + intros [N _]. contradiction.
    + auto.
    + eauto.
    + intros [idx Hx]. discriminate.
    + intros [_ Nv]. contradiction.
  - unfold r, h'. destruct Hcase as [(E & ->) | [(N & Nv & ->) | (N & Ev & ->)]];
      cbn [fst snd]; auto.
    intros [Hx | [idx Hx]]; discriminate.
  - intros N Ev. unfold r, h'.
    destruct Hcase as [(E & _) | [(_ & Nv & _) | (_ & _ & ->)]];
      [contradiction | contradiction |].
    cbn [fst snd SPMCConsumer.capacity_ SPMCConsumer.lReadIdx SPMCConsumer.lVersion].
    assert (Z.land (Word.wrap (SPMCConsumer.lReadIdx h + 1))
                   (Word.wrap (SPMCConsumer.capacity_ h - 1)) =
            (SPMCConsumer.lReadIdx h + 1) mod SPMCConsumer.capacity_ h) as ->.
    { rewrite land_mask by exact Hg. apply wrap_mod, Hg. }
    repeat split.
    rewrite wrap_small by lia.
    destruct (Z.eqb_spec (SPMCConsumer.lReadIdx h + 1) (SPMCConsumer.capacity_ h))
      as [Ec|Nc]; cbn [Word.of_bool].
    + rewrite Ec, Z.mod_same by lia. reflexivity.
    + rewrite Z.mod_small by lia.
      destruct (Z.eqb_spec (SPMCConsumer.lReadIdx h + 1) 0); [lia|].
      rewrite Z.add_0_r. apply wrap32_small, Hv.
  - intros s i Hq Hh s'. subst q.
    destruct (pop_frame T dflt s i h Hh) as (F1 & F2 & F3 & F4).
    fold s' in F1, F2, F3, F4. auto.
Qed.

Lemma spmc_pop_cases_witness :
  let q := SPMC.mkSPMCQ 4 [SPMC.mkEntry 7 0; SPMC.mkEntry 8 0; SPMC.mkEntry 0 0;
                           SPMC.mkEntry 0 0] 2 2 in
  let h := SPMCConsumer.mk 4 1 0 in
  let slot := at_ (SPMC.entry0 0) (SPMC.items_ q) (SPMCConsumer.lReadIdx h) in
  let r := fst (SPMCConsumer.pop 0 q h) in
  let h' := snd (SPMCConsumer.pop 0 q h) in
  (r = SPMCConsumer.Empty <-> SPMCConsumer.lReadIdx h = SPMC.mReadIndex q) /\
  ((exists idx, r = SPMCConsumer.Overlapped idx) <->
     SPMCConsumer.lReadIdx h <> SPMC.mReadIndex q /\
     SPMC.version slot <> SPMCConsumer.lVersion h) /\
  (r = SPMCConsumer.Empty \/ (exists idx, r = SPMCConsumer.Overlapped idx) -> h' = h) /\
  (SPMCConsumer.lReadIdx h <> SPMC.mReadIndex q ->
   SPMC.version slot = SPMCConsumer.lVersion h ->
     r = SPMCConsumer.Popped (SPMC.data slot) /\
     SPMCConsumer.capacity_ h' = SPMCConsumer.capacity_ h /\
     SPMCConsumer.lReadIdx h' =
       (SPMCConsumer.lReadIdx h + 1) mod SPMCConsumer.capacity_ h /\
     SPMCConsumer.lVersion h' =
       (if SPMCConsumer.lReadIdx h' =? 0
        then Word.wrap32 (SPMCConsumer.lVersion h + 1)
        else SPMCConsumer.lVersion h)) /\
  (forall (s : SPMCSystem.state Z) (i : nat),
      SPMCSystem.queue s = q ->
      nth_error (SPMCSystem.consumers s) i = Some h ->
      let s' := snd (SPMCSystem.step 0 (SPMCSystem.Pop i) s) in
      SPMCSystem.queue s' = q /\
      SPMCSystem.producer s' = SPMCSystem.producer s /\
      nth_error (SPMCSystem.consumers s') i = Some h' /\
      forall j : nat, j <> i ->
        nth_error (SPMCSystem.consumers s') j = nth_error (SPMCSystem.consumers s) j).
Proof.
  apply (spmc_pop_cases Z 0); simpl.
  - exists 2. split; [lia | reflexivity].
  - lia.
  - lia.
Defined.

(** C2 (against the specification's model of [respawn]).  Take any state
    reached by pushes on a freshly constructed queue and any handle of that
    queue, however far behind.  After [respawn()] the handle stands on the
    published cursor with the producer's version; its next pop returns
    false rather than failing with [Overlapped]; and when the producer then
    pushes fewer than [capacity] further values, the handle's pops hand out
    exactly these, in order, and none of the values it had left unread. *)
Theorem spmc_respawn_resumes (T : Type) (dflt : T) (c : Z) (q0 : SPMC.SPMCQ T)
    (before after : list T) (h : SPMCConsumer.t) :
  0 <= c < 2 ^ 64 ->
  SPMC.make dflt c = Capacity.Constructed q0 ->
  SPMCConsumer.capacity_ h = c ->
  Z.of_nat (length after) < c ->
  let q1 := fst (SPMCProducer.push_all before q0 (SPMCProducer.getProducer q0)) in
  let p1 := snd (SPMCProducer.push_all before q0 (SPMCProducer.getProducer q0)) in
  let h' := SPMCConsumer.respawn q1 p1 h in
  let q2 := fst (SPMCProducer.push_all after q1 p1) in
  SPMCConsumer.lReadIdx h' = SPMC.mReadIndex q1 /\
  SPMCConsumer.lVersion h' = SPMCProducer.lVersion p1 /\
  SPMCConsumer.pop dflt q1 h' = (SPMCConsumer.Empty, h') /\
  fst (SPMCConsumer.pop_n dflt (length after) q2 h') = map SPMCConsumer.Popped after.
Proof.
  intros Hc Hm Hcap Hk q1 p1 h' q2.
  destruct (ring_make T dflt c q0 Hc Hm) as [Hg HR0].
  pose proof (good_range c Hg) as Hr.
  pose proof (ring_push_all T dflt c before Hg _ _ _ HR0) as HR1.
  fold q1 p1 in HR1. cbn [app] in HR1.
  pose proof (ring_push_all T dflt c after Hg _ _ _ HR1) as HR2.
  fold q2 in HR2.
  assert (SPMCSystem.At c h' (Z.of_nat (length before))) as HA.
  { constructor; unfold h', SPMCConsumer.respawn; simpl; auto; try lia.
    - apply (SPMCSystem.ring_read _ _ _ _ _ _ HR1).
    - apply (SPMCSystem.ring_wver _ _ _ _ _ _ HR1). }
  split; [reflexivity|]. split; [reflexivity|]. split.
  - destruct (pop_in_sync T dflt c q1 p1 before h' _ Hg HR1 HA ltac:(lia))
      as [(_ & E) | (Hlt & _)]; [exact E | lia].
  - rewrite (pop_n_in_sync T dflt c q2 _ (before ++ after) (length after) Hg HR2
               h' (length before) HA).
    + rewrite skipn_app, Nat.sub_diag, skipn_all. reflexivity.
    + apply length_app.
    + exact Hk.
Qed.

Lemma spmc_respawn_resumes_witness :
  let q0 := SPMC.mkSPMCQ 2 (repeat (SPMC.entry0 0) 2) 0 0 in
  let h := SPMCConsumer.mk 2 0 0 in
  let before := [1; 2; 3] in
  let after := [4] in
  let q1 := fst (SPMCProducer.push_all before q0 (SPMCProducer.getProducer q0)) in
  let p1 := snd (SPMCProducer.push_all before q0 (SPMCProducer.getProducer q0)) in
  let h' := SPMCConsumer.respawn q1 p1 h in
  let q2 := fst (SPMCProducer.push_all after q1 p1) in
  SPMCConsumer.lReadIdx h' = SPMC.mReadIndex q1 /\
  SPMCConsumer.lVersion h' = SPMCProducer.lVersion p1 /\
  SPMCConsumer.pop 0 q1 h' = (SPMCConsumer.Empty, h') /\
  fst (SPMCConsumer.pop_n 0 (length after) q2 h') = map SPMCConsumer.Popped after.
Proof.
  apply (spmc_respawn_resumes Z 0 2);
    [lia | vm_compute; reflexivity | reflexivity | vm_compute; reflexivity].
Defined.

(** C3 (SPMC push).  For a producer handle of a valid capacity whose write
    index is in range of the ring: [push] returns true; it stores the item
    together with the current local version in the slot at the local write
    index and leaves every other slot as it was; the write index advances
    modulo the capacity; the local version is incremented exactly when the
    index wraps to 0; and the consumers are neither read nor written: the
    call gives the same ring and handle whatever the consumers are, and
    leaves them as they were. *)
Theorem spmc_push_effect (T : Type) (dflt : T) (item : T) (q : SPMC.SPMCQ T)
    (p : SPMCProducer.t) :
  Capacity.good (SPMCProducer.capacity_ p) ->
  0 <= SPMCProducer.lWriteIdx p < SPMCProducer.capacity_ p ->
  Z.of_nat (length (SPMC.items_ q)) = SPMCProducer.capacity_ p ->
  0 <= SPMCProducer.lVersion p < 2 ^ 32 ->
  let ok := fst (fst (SPMCProducer.push item q p)) in
  let q' := snd (fst (SPMCProducer.push item q p)) in
  let p' := snd (SPMCProducer.push item q p) in
  ok = true /\
  SPMC.items_ q' =
    set_ (SPMC.items_ q) (SPMCProducer.lWriteIdx p)
         {| SPMC.data := item; SPMC.version := SPMCProducer.lVersion p |} /\
  at_ (SPMC.entry0 dflt) (SPMC.items_ q') (SPMCProducer.lWriteIdx p) =
    {| SPMC.data := item; SPMC.version := SPMCProducer.lVersion p |} /\
  (forall j : Z, 0 <= j -> j <> SPMCProducer.lWriteIdx p ->
      at_ (SPMC.entry0 dflt) (SPMC.items_ q') j = at_ (SPMC.entry0 dflt) (SPMC.items_ q) j) /\
  SPMC.capacity_ q' = SPMC.capacity_ q /\
  SPMCProducer.capacity_ p' = SPMCProducer.capacity_ p /\
  SPMCProducer.lWriteIdx p' = (SPMCProducer.lWriteIdx p + 1) mod SPMCProducer.capacity_ p /\
  SPMCProducer.lVersion p' =
    (if SPMCProducer.lWriteIdx p' =? 0
     then Word.wrap32 (SPMCProducer.lVersion p + 1)
     else SPMCProducer.lVersion p) /\
  (forall cs : list SPMCConsumer.t,
      snd (SPMCSystem.step dflt (SPMCSystem.Push item) (SPMCSystem.mkState q p cs)) =
      SPMCSystem.mkState q' p' cs).
Proof.
  intros Hg Hi Hlen Hv ok q' p'.
  pose proof (good_range _ Hg) as Hr.
  assert (SPMCProducer.nxtWriteIdx p =
          (SPMCProducer.lWriteIdx p + 1) mod SPMCProducer.capacity_ p) as Enx.
  { unfold SPMCProducer.nxtWriteIdx. rewrite land_mask by exact Hg. apply wrap_mod, Hg. }
  split; [reflexivity|]. split; [reflexivity|]. split.
  { unfold q'. simpl. apply at_set_same. lia. }
  split.
  { intros j Hj Nj. unfold q'. simpl. apply at_set_other; lia. }
  split; [reflexivity|]. split; [reflexivity|]. split; [exact Enx|].
  split; [|intros cs; reflexivity].
  unfold p'. cbn [snd SPMCProducer.push SPMCProducer.lWriteIdx SPMCProducer.lVersion].
  rewrite Enx. unfold SPMCProducer.nxtVersion. rewrite wrap_small by lia.
  destruct (Z.eqb_spec (SPMCProducer.lWriteIdx p + 1) (SPMCProducer.capacity_ p))
    as [Ec|Nc]; cbn [Word.of_bool].
  - rewrite Ec, Z.mod_same by lia. reflexivity.
  - rewrite Z.mod_small by lia.
    destruct (Z.eqb_spec (SPMCProducer.lWriteIdx p + 1) 0); [lia|].
    rewrite Z.add_0_r. apply wrap32_small, Hv.
Qed.

Lemma spmc_push_effect_witness :
  let item := 9 in
  let q := SPMC.mkSPMCQ 2 [SPMC.mkEntry 7 0; SPMC.mkEntry 0 0] 1 1 in
  let p := SPMCProducer.mk 2 1 0 in
  let ok := fst (fst (SPMCProducer.push item q p)) in
  let q' := snd (fst (SPMCProducer.push item q p)) in
  let p' := snd (SPMCProducer.push item q p) in
  ok = true /\
  SPMC.items_ q' =
    set_ (SPMC.items_ q) (SPMCProducer.lWriteIdx p)
         {| SPMC.data := item; SPMC.version := SPMCProducer.lVersion p |} /\
  at_ (SPMC.entry0 0) (SPMC.items_ q') (SPMCProducer.lWriteIdx p) =
    {| SPMC.data := item; SPMC.version := SPMCProducer.lVersion p |} /\
  (forall j : Z, 0 <= j -> j <> SPMCProducer.lWriteIdx p ->
      at_ (SPMC.entry0 0) (SPMC.items_ q') j = at_ (SPMC.entry0 0) (SPMC.items_ q) j) /\
  SPMC.capacity_ q' = SPMC.capacity_ q /\
  SPMCProducer.capacity_ p' = SPMCProducer.capacity_ p /\
  SPMCProducer.lWriteIdx p' = (SPMCProducer.lWriteIdx p + 1) mod SPMCProducer.capacity_ p /\
  SPMCProducer.lVersion p' =
    (if SPMCProducer.lWriteIdx p' =? 0
     then Word.wrap32 (SPMCProducer.lVersion p + 1)
     else SPMCProducer.lVersion p) /\
  (forall cs : list SPMCConsumer.t,
      snd (SPMCSystem.step 0 (SPMCSystem.Push item) (SPMCSystem.mkState q p cs)) =
      SPMCSystem.mkState q' p' cs).
Proof.
  apply (spmc_push_effect Z 0); simpl.
  - exists 1. split; [lia | reflexivity].
  - lia.
  - reflexivity.
  - lia.
Defined.




(** C5 (SPMC push, program order of the stores).  A push performs the
    stores listed by [SPMCProducer.stores].  Exactly one of them writes the
    cursor the consumers load ([mReadIndex]), and it comes after the store
    of the payload.  So after any number of the stores of a push, either
    the consumers' cursor is still where it was, or it is on the new write
    index and the slot it has moved past holds the item with its version.
    (The visibility of these stores to other threads under release and
    acquire ordering is outside this model.) *)
Theorem spmc_push_publish_order (T : Type) (dflt : T) (item : T) (q : SPMC.SPMCQ T)
    (p : SPMCProducer.t) :
  0 <= SPMCProducer.lWriteIdx p < Z.of_nat (length (SPMC.items_ q)) ->
  let ss := SPMCProducer.stores item p in
  let payload := {| SPMC.data := item; SPMC.version := SPMCProducer.lVersion p |} in
  snd (fst (SPMCProducer.push item q p)) = SPMC.apply_stores q ss /\
  length (filter SPMC.is_publish ss) = 1%nat /\
  (exists before after : list (SPMC.store T),
      ss = before ++ SPMC.StoreItem (SPMCProducer.lWriteIdx p) payload :: after /\
      filter SPMC.is_publish before = [] /\
      filter SPMC.is_publish after = [SPMC.StoreReadIndex (SPMCProducer.nxtWriteIdx p)]) /\
  (forall k : nat,
      let qk := SPMC.apply_stores q (firstn k ss) in
      SPMC.mReadIndex qk = SPMC.mReadIndex q \/
      (SPMC.mReadIndex qk = SPMCProducer.nxtWriteIdx p /\
       at_ (SPMC.entry0 dflt) (SPMC.items_ qk) (SPMCProducer.lWriteIdx p) = payload)).
Proof.
  intros Hi ss payload.
  split; [reflexivity|]. split; [reflexivity|]. split.
  - exists [SPMC.StoreWriteIndex (SPMCProducer.nxtWriteIdx p)],
           [SPMC.StoreReadIndex (SPMCProducer.nxtWriteIdx p)].
    repeat split.
  - intros k. destruct k as [|[|[|k]]]; simpl; auto.
    rewrite firstn_nil. simpl.
    right. split; [reflexivity|]. apply at_set_same. exact Hi.
Qed.

Lemma spmc_push_publish_order_witness :
  let item := 9 in
  let q := SPMC.mkSPMCQ 2 [SPMC.mkEntry 7 0; SPMC.mkEntry 0 0] 1 1 in
  let p := SPMCProducer.mk 2 1 0 in
  let ss := SPMCProducer.stores item p in
  let payload := {| SPMC.data := item; SPMC.version := SPMCProducer.lVersion p |} in
  snd (fst (SPMCProducer.push item q p)) = SPMC.apply_stores q ss /\
  length (filter SPMC.is_publish ss) = 1%nat /\
  (exists before after : list (SPMC.store Z),
      ss = before ++ SPMC.StoreItem (SPMCProducer.lWriteIdx p) payload :: after /\
      filter SPMC.is_publish before = [] /\
      filter SPMC.is_publish after = [SPMC.StoreReadIndex (SPMCProducer.nxtWriteIdx p)]) /\
  (forall k : nat,
      let qk := SPMC.apply_stores q (firstn k ss) in
      SPMC.mReadIndex qk = SPMC.mReadIndex q \/
      (SPMC.mReadIndex qk = SPMCProducer.nxtWriteIdx p /\
       at_ (SPMC.entry0 0) (SPMC.items_ qk) (SPMCProducer.lWriteIdx p) = payload)).
Proof.
  apply (spmc_push_publish_order Z 0). simpl. lia.
Defined.

(** C10 (SPMC queue-level observers).  A push leaves [mReadIndex] and
    [mWriteIndex] both at the producer's new write index.  Hence, in every
    state reached from a freshly constructed queue by pushes, pops and
    handle creations, each run to its end, the queue reports [empty()],
    [size() = 0] and not [full()] -- however many pushed values no
    consumer has read. *)
Theorem spmc_queue_observers (T : Type) (dflt : T) (c : Z) (q0 : SPMC.SPMCQ T)
    (ops : list (SPMCSystem.op T)) :
  0 <= c < 2 ^ 64 ->
  SPMC.make dflt c = Capacity.Constructed q0 ->
  let s := snd (SPMCSystem.run dflt ops (SPMCSystem.init q0)) in
  let q := SPMCSystem.queue s in
  (forall v : T,
      let q' := snd (fst (SPMCProducer.push v q (SPMCSystem.producer s))) in
      let p' := snd (SPMCProducer.push v q (SPMCSystem.producer s)) in
      SPMC.mReadIndex q' = SPMCProducer.lWriteIdx p' /\
      SPMC.mWriteIndex q' = SPMCProducer.lWriteIdx p') /\
  SPMC.mReadIndex q = SPMC.mWriteIndex q /\
  SPMC.empty q = true /\
  SPMC.size q = 0 /\
  SPMC.full q = false.
Proof.
  intros Hc Hm s q.
  destruct (ring_make T dflt c q0 Hc Hm) as [Hg HR].
  pose proof (ring_run T dflt c ops Hg (SPMCSystem.init q0) [] HR) as HR'.
  fold s in HR'. fold q in HR'.
  destruct (ring_observers T dflt c _ _ _ Hg HR') as (E1 & E2 & E3 & E4 & E5).
  split; [|auto]. intros v. split; reflexivity.
Qed.

Lemma spmc_queue_observers_witness :
  let s := snd (SPMCSystem.run 0
                  [SPMCSystem.GetConsumer; SPMCSystem.Push 1; SPMCSystem.Push 2;
                   SPMCSystem.Push 3]
                  (SPMCSystem.init (SPMC.mkSPMCQ 4 (repeat (SPMC.entry0 0) 4) 0 0))) in
  let q := SPMCSystem.queue s in
  (forall v : Z,
      let q' := snd (fst (SPMCProducer.push v q (SPMCSystem.producer s))) in
      let p' := snd (SPMCProducer.push v q (SPMCSystem.producer s)) in
      SPMC.mReadIndex q' = SPMCProducer.lWriteIdx p' /\
      SPMC.mWriteIndex q' = SPMCProducer.lWriteIdx p') /\
  SPMC.mReadIndex q = SPMC.mWriteIndex q /\
  SPMC.empty q = true /\
  SPMC.size q = 0 /\
  SPMC.full q = false.
Proof.
  apply (spmc_queue_observers Z 0 4); [lia | vm_compute; reflexivity].
Defined.

(* ================================================================== *)
(** * Construction                                                      *)
(* ================================================================== *)

Section Construction.
Import Word Capacity.

Lemma good_is_pow2 (c : Z) : good c -> 2 <= c /\ is_pow2 c.
Proof.
  intros Hg. pose proof (good_range c Hg). destruct Hg as (k & Hk & ->).
  split; [lia|]. exists k. split; [lia | reflexivity].
Qed.

Lemma is_pow2_good (c : Z) : 0 <= c < 2 ^ 64 -> 2 <= c -> is_pow2 c -> good c.
Proof.
  intros Hc H2 (k & Hk & ->). exists k. split; [|reflexivity].
  pose proof (pow2_ge_2 k Hk H2).
  assert (k < 64) by (apply (Z.pow_lt_mono_r_iff 2); lia). lia.
Qed.

Lemma not_good_iff (c : Z) :
  0 <= c < 2 ^ 64 -> (~ good c <-> c < 2 \/ ~ is_pow2 c).
Proof.
  intros Hc. split.
  - intros Hn. destruct (Z_lt_le_dec c 2) as [|H2]; [left; assumption|].
    right. intros Hp. apply Hn, is_pow2_good; assumption.
  - intros [Hlt | Hnp] Hg; apply good_is_pow2 in Hg; [lia | tauto].
Qed.

Lemma guard_true_iff (g : bool) (c : Z) :
  (g = false <-> good c) -> (g = true <-> ~ good c).
Proof.
  intros [H1 H2]. split.
  - intros -> Hg. apply H2 in Hg. discriminate.
  - intros Hn. destruct g; [reflexivity|]. exfalso. auto.
Qed.

(** The allocation never throws [std::logic_error]. *)
Lemma new_array_not_logic (h : Alloc.heap) (e n : Z) (x : Alloc.exception) :
  Alloc.new_array h e n = Some x -> x <> Alloc.logic_error.
Proof.
  unfold Alloc.new_array.
  destruct (Alloc.limit h <? n * e); [intros [= <-]; discriminate|].
  destruct (Alloc.free h <? n * e); [intros [= <-]; discriminate|].
  discriminate.
Qed.

(** A constructor that allocates [c] slots and then runs a body guarded by
    [g], where [g] lets exactly the powers of two from 2 on through. *)
Lemma construct_cases {Q A : Type} (g : bool) (q0 : Q) (slots : Q -> list A)
    (h : Alloc.heap) (e c : Z) :
  0 <= c < 2 ^ 64 ->
  (g = false <-> good c) ->
  Z.of_nat (length (slots q0)) = c ->
  let r := match Alloc.new_array h e c with
           | Some x => Alloc.Threw x
           | None => Alloc.of_body (if g then LogicError else Constructed q0)
           end in
  (Alloc.new_array h e c = None ->
   (r = Alloc.Threw Alloc.logic_error <-> c < 2 \/ ~ is_pow2 c)) /\
  ((exists q : Q, r = Alloc.Returned q) <->
   Alloc.new_array h e c = None /\ 2 <= c /\ is_pow2 c) /\
  (forall q : Q, r = Alloc.Returned q -> Z.of_nat (length (slots q)) = c) /\
  (forall x : Alloc.exception, Alloc.new_array h e c = Some x ->
   2 <= c -> is_pow2 c -> r = Alloc.Threw x /\ x <> Alloc.logic_error).
Proof.
  intros Hc Hg Hlen r.
  pose proof (guard_true_iff g c Hg) as Hb. rewrite (not_good_iff c Hc) in Hb.
  subst r. destruct (Alloc.new_array h e c) as [x|] eqn:Ea.
  - split; [discriminate|]. split; [|split].
    + split; [intros [q Hq]; discriminate Hq | intros [Habs _]; discriminate Habs].
    + intros q Hq. discriminate Hq.
    + intros y [= <-] _ _. split; [reflexivity|].
      exact (new_array_not_logic h e c x Ea).
  - destruct g; cbn [Alloc.of_body].
    + assert (c < 2 \/ ~ is_pow2 c) as Hbad by (apply Hb; reflexivity).
      split; [intros _; split; auto|]. split; [|split].
      * split; [intros [q Hq]; discriminate Hq|].
        intros (_ & H2 & Hp). destruct Hbad; [lia | contradiction].
      * intros q Hq. discriminate Hq.
      * intros y Hy. discriminate Hy.
    + assert (good c) as Hgood by (apply Hg; reflexivity).
      destruct (good_is_pow2 c Hgood) as [H2 Hp].
      split; [intros _; split; [discriminate|]|].
      { intros [Hlt | Hnp]; [lia | contradiction]. }
      split; [|split].
      * split; [intros _; auto | intros _; exists q0; reflexivity].
      * intros q [= <-]. exact Hlen.
      * intros y Hy. discriminate Hy.
Qed.

End Construction.

(** On a free store with GCC's limit of [PTRDIFF_MAX] bytes and 64 GiB to
    hand out: capacity 3 reaches the guard and is refused, capacity 4 gives
    a queue of four slots, and a capacity of [SIZE_MAX] never reaches the
    guard, because the allocation throws first. *)
Example construction_examples :
  let h := Alloc.mkHeap (2 ^ 63 - 1) (2 ^ 36) in
  SPSC.construct 0 h 4 3 = Alloc.Threw Alloc.logic_error /\
  SPSC.construct 0 h 4 4 = Alloc.Returned (SPSC.mkSPSCQ 4 [0; 0; 0; 0] 0 0) /\
  MPSC.construct 0 h 16 3 = Alloc.Threw Alloc.logic_error /\
  SPMC.construct 0 h 128 3 = Alloc.Threw Alloc.logic_error /\
  SPSC.construct 0 h 4 (2 ^ 64 - 1) = Alloc.Threw Alloc.bad_array_new_length /\
  SPMC.construct 0 h 128 (2 ^ 40) = Alloc.Threw Alloc.bad_alloc.
Proof.
  cbv zeta. repeat split; vm_compute; reflexivity.
Qed.

(** C9, as stated, fails on the code: the constructors allocate the backing
    array before they look at the capacity.  [2^63] is a power of two, and
    not less than 2, yet no queue of that capacity is constructed: the
    array of [2^63] elements of 4, 16 or 128 bytes is past anything
    [size_t] can count, and the new-expression throws
    [std::bad_array_new_length]. *)
Lemma construction_huge_capacity_counterexample :
  let h := Alloc.mkHeap (2 ^ 63 - 1) (2 ^ 36) in
  (2 <= 2 ^ 63 /\ Capacity.is_pow2 (2 ^ 63)) /\
  SPSC.construct 0 h 4 (2 ^ 63) = Alloc.Threw Alloc.bad_array_new_length /\
  MPSC.construct 0 h 16 (2 ^ 63) = Alloc.Threw Alloc.bad_array_new_length /\
  SPMC.construct 0 h 128 (2 ^ 63) = Alloc.Threw Alloc.bad_array_new_length.
Proof.
  cbv zeta. split; [split; [lia | exists 63; split; [lia | reflexivity]]|].
  unfold SPSC.construct, MPSC.construct, SPMC.construct, Alloc.new_array.
  cbn [Alloc.limit Alloc.free].
  rewrite !(proj2 (Z.ltb_lt _ _)) by lia. repeat split.
Qed.

(** C9 (construction), amended.  Let the free store be any, and [c] any
    [size_t] capacity.  For each of the three queues: when the allocation
    of the [c] slots succeeds, the constructor throws [std::logic_error]
    exactly when [c] is less than 2 or not a power of two; it returns a
    queue exactly when the allocation succeeds and [c] is a power of two
    from 2 on; a queue it returns has a backing array of [c] slots; and
    for a power of two from 2 on whose slots cannot be allocated it throws
    what the allocation threw, which is not [std::logic_error]. *)
Theorem construction_guard (T : Type) (dflt : T) (h : Alloc.heap) (e1 e2 e3 c : Z) :
  0 <= c < 2 ^ 64 ->
  ((Alloc.new_array h e1 c = None ->
    (SPSC.construct dflt h e1 c = Alloc.Threw Alloc.logic_error <->
     c < 2 \/ ~ Capacity.is_pow2 c)) /\
   ((exists q : SPSC.SPSCQ T, SPSC.construct dflt h e1 c = Alloc.Returned q) <->
    Alloc.new_array h e1 c = None /\ 2 <= c /\ Capacity.is_pow2 c) /\
   (forall q : SPSC.SPSCQ T, SPSC.construct dflt h e1 c = Alloc.Returned q ->
    Z.of_nat (length (SPSC.items_ q)) = c) /\
   (forall x : Alloc.exception, Alloc.new_array h e1 c = Some x ->
    2 <= c -> Capacity.is_pow2 c ->
    SPSC.construct dflt h e1 c = Alloc.Threw x /\ x <> Alloc.logic_error)) /\
  ((Alloc.new_array h e2 c = None ->
    (MPSC.construct dflt h e2 c = Alloc.Threw Alloc.logic_error <->
     c < 2 \/ ~ Capacity.is_pow2 c)) /\
   ((exists q : MPSC.MPSCQ T, MPSC.construct dflt h e2 c = Alloc.Returned q) <->
    Alloc.new_array h e2 c = None /\ 2 <= c /\ Capacity.is_pow2 c) /\
   (forall q : MPSC.MPSCQ T, MPSC.construct dflt h e2 c = Alloc.Returned q ->
    Z.of_nat (length (MPSC.buffer_ q)) = c) /\
   (forall x : Alloc.exception, Alloc.new_array h e2 c = Some x ->
    2 <= c -> Capacity.is_pow2 c ->
    MPSC.construct dflt h e2 c = Alloc.Threw x /\ x <> Alloc.logic_error)) /\
  ((Alloc.new_array h e3 c = None ->
    (SPMC.construct dflt h e3 c = Alloc.Threw Alloc.logic_error <->
     c < 2 \/ ~ Capacity.is_pow2 c)) /\
   ((exists q : SPMC.SPMCQ T, SPMC.construct dflt h e3 c = Alloc.Returned q) <->
    Alloc.new_array h e3 c = None /\ 2 <= c /\ Capacity.is_pow2 c) /\
   (forall q : SPMC.SPMCQ T, SPMC.construct dflt h e3 c = Alloc.Returned q ->
    Z.of_nat (length (SPMC.items_ q)) = c) /\
   (forall x : Alloc.exception, Alloc.new_array h e3 c = Some x ->
    2 <= c -> Capacity.is_pow2 c ->
    SPMC.construct dflt h e3 c = Alloc.Threw x /\ x <> Alloc.logic_error)).
Proof.
  intros Hc. split; [|split].
  - apply (construct_cases (Capacity.rejected_by_bitset c) _ SPSC.items_ h e1 c Hc
             (bitset_guard_iff c Hc)).
    cbn [SPSC.items_]. rewrite repeat_length. lia.
  - apply (construct_cases (Capacity.rejected_by_mask c) _ MPSC.buffer_ h e2 c Hc
             (mask_guard_iff c Hc)).
    cbn [MPSC.buffer_].
    rewrite (proj1 (init_sequences_spec T dflt _ _)), repeat_length. lia.
  - apply (construct_cases (Capacity.rejected_by_bitset c) _ SPMC.items_ h e3 c Hc
             (bitset_guard_iff c Hc)).
    cbn [SPMC.items_]. rewrite repeat_length. lia.
Qed.

Lemma construction_guard_witness :
  let h := Alloc.mkHeap (2 ^ 63 - 1) (2 ^ 36) in
  ((Alloc.new_array h 4 4 = None ->
    (SPSC.construct 0 h 4 4 = Alloc.Threw Alloc.logic_error <->
     4 < 2 \/ ~ Capacity.is_pow2 4)) /\
   ((exists q : SPSC.SPSCQ Z, SPSC.construct 0 h 4 4 = Alloc.Returned q) <->
    Alloc.new_array h 4 4 = None /\ 2 <= 4 /\ Capacity.is_pow2 4) /\
   (forall q : SPSC.SPSCQ Z, SPSC.construct 0 h 4 4 = Alloc.Returned q ->
    Z.of_nat (length (SPSC.items_ q)) = 4) /\
   (forall x : Alloc.exception, Alloc.new_array h 4 4 = Some x ->
    2 <= 4 -> Capacity.is_pow2 4 ->
    SPSC.construct 0 h 4 4 = Alloc.Threw x /\ x <> Alloc.logic_error)) /\
  ((Alloc.new_array h 16 4 = None ->
    (MPSC.construct 0 h 16 4 = Alloc.Threw Alloc.logic_error <->
     4 < 2 \/ ~ Capacity.is_pow2 4)) /\
   ((exists q : MPSC.MPSCQ Z, MPSC.construct 0 h 16 4 = Alloc.Returned q) <->
    Alloc.new_array h 16 4 = None /\ 2 <= 4 /\ Capacity.is_pow2 4) /\
   (forall q : MPSC.MPSCQ Z, MPSC.construct 0 h 16 4 = Alloc.Returned q ->
    Z.of_nat (length (MPSC.buffer_ q)) = 4) /\
   (forall x : Alloc.exception, Alloc.new_array h 16 4 = Some x ->
    2 <= 4 -> Capacity.is_pow2 4 ->
    MPSC.construct 0 h 16 4 = Alloc.Threw x /\ x <> Alloc.logic_error)) /\
  ((Alloc.new_array h 128 4 = None ->
    (SPMC.construct 0 h 128 4 = Alloc.Threw Alloc.logic_error <->
     4 < 2 \/ ~ Capacity.is_pow2 4)) /\
   ((exists q : SPMC.SPMCQ Z, SPMC.construct 0 h 128 4 = Alloc.Returned q) <->
    Alloc.new_array h 128 4 = None /\ 2 <= 4 /\ Capacity.is_pow2 4) /\
   (forall q : SPMC.SPMCQ Z, SPMC.construct 0 h 128 4 = Alloc.Returned q ->
    Z.of_nat (length (SPMC.items_ q)) = 4) /\
   (forall x : Alloc.exception, Alloc.new_array h 128 4 = Some x ->
    2 <= 4 -> Capacity.is_pow2 4 ->
    SPMC.construct 0 h 128 4 = Alloc.Threw x /\ x <> Alloc.logic_error)).
Proof.
  apply (construction_guard Z 0 (Alloc.mkHeap (2 ^ 63 - 1) (2 ^ 36)) 4 16 128 4). lia.
Defined.

(* ================================================================== *)
(** * Further properties of the SPMC ring                               *)
(* ================================================================== *)

Section SPMC_lag.
Import Word Capacity SPMCSystem SPMCLag.
Variable T : Type.
Variable dflt : T.

Local Abbreviation len l := (Z.of_nat (length l)).

(** Where a history from a freshly constructed queue leaves consumer [i]. *)
Lemma follows_reach (c : Z) (q0 : SPMC.SPMCQ T) (ops : list (op T)) (i : nat) :
  0 <= c < 2 ^ 64 -> SPMC.make dflt c = Constructed q0 ->
  len (pushed (fst (run dflt ops (init q0)))) < c * 2 ^ 32 ->
  good c /\
  Follows dflt c (snd (run dflt ops (init q0))) (pushed (fst (run dflt ops (init q0)))) i
          (popped_by i (fst (run dflt ops (init q0))))
          (overlapped i (fst (run dflt ops (init q0)))).
Proof.
  intros Hc Hm Hbig. destruct (ring_make T dflt c q0 Hc Hm) as [Hg HR].
  split; [exact Hg|].
  assert (Follows dflt c (init q0) [] i [] false) as HF
    by (split; [exact HR | destruct i; simpl; auto]).
  exact (follows_run T dflt c i ops Hg _ _ _ _ HF Hbig).
Qed.

(** The position of a consumer that was never overlapped is the number of
    values it has popped. *)
Lemma follows_position (c : Z) (s : state T) (hist pop : list T) (i : nat)
    (h : SPMCConsumer.t) :
  Follows dflt c s hist i pop false ->
  nth_error (consumers s) i = Some h ->
  RingInv dflt c (queue s) (producer s) hist /\
  At c h (len pop) /\ (length pop <= length hist)%nat /\
  pop = firstn (length pop) hist.
Proof.
  intros [HR HF] Hh. rewrite Hh in HF. destruct HF as (m & HA & Hm & Hp).
  specialize (Hp eq_refl).
  assert (length pop = m) as El by (rewrite Hp; apply firstn_length_le; exact Hm).
  rewrite El. auto.
Qed.

(** A pop by a handle a lap or more behind hands out nothing and leaves
    the handle where it is. *)
Lemma pop_lapped_stays (c : Z) (q : SPMC.SPMCQ T) (p : SPMCProducer.t) (hist : list T)
    (h : SPMCConsumer.t) (m : Z) :
  good c -> RingInv dflt c q p hist -> At c h m ->
  m + c <= len hist -> len hist < c * 2 ^ 32 ->
  snd (SPMCConsumer.pop dflt q h) = h /\
  forall v : T, fst (SPMCConsumer.pop dflt q h) <> SPMCConsumer.Popped v.
Proof.
  intros Hc HR HA Hlap Hbig.
  destruct (pop_lapped T dflt c q p hist h m Hc HR HA Hlap Hbig)
    as [(_ & E) | (_ & E)]; rewrite E; split; auto; discriminate.
Qed.

Lemma lagging_step (c : Z) (i : nat) (o : op T) (s : state T) (hist : list T)
    (ovl : bool) :
  good c -> Lagging dflt c s hist i ovl ->
  len (hist ++ pushed (fst (step dflt o s))) < c * 2 ^ 32 ->
  Lagging dflt c (snd (step dflt o s)) (hist ++ pushed (fst (step dflt o s))) i
          (ovl || overlapped i (fst (step dflt o s))) /\
  (ovl = true -> popped_by i (fst (step dflt o s)) = []).
Proof.
  intros Hc [HR HL] Hbig. pose proof (good_range c Hc) as Hr.
  destruct o as [v | k | ].
  - rewrite step_push in *. cbn [fst snd] in *.
    change (pushed [Pushed v]) with [v] in *.
    change (popped_by i [Pushed v]) with (@nil T).
    change (overlapped i [Pushed v]) with false.
    rewrite orb_false_r. split; [|reflexivity].
    split; cbn [queue producer consumers]; [apply ring_push; assumption|].
    destruct (nth_error (consumers s) i) as [h|]; [|exact HL].
    destruct HL as (m & HA & Hm & Hl). exists m.
    rewrite length_app. cbn [length]. split; [exact HA|]. split; [lia|].
    intros Ho. specialize (Hl Ho). lia.
  - destruct (nth_error (consumers s) k) as [hk|] eqn:Ek.
    + rewrite (step_pop T dflt k s hk Ek) in *. cbn [fst snd] in *.
      change (pushed [PopReturned k (fst (SPMCConsumer.pop dflt (queue s) hk))])
        with (@nil T) in *.
      rewrite app_nil_r in *.
      destruct (Nat.eq_dec k i) as [->|Nk].
      * rewrite Ek in HL. destruct HL as (m & HA & Hm & Hl).
        assert (i < length (consumers s))%nat as Hi
          by (apply nth_error_Some; congruence).
        unfold Lagging. cbn [queue producer consumers].
        rewrite nth_error_upd_same by exact Hi.
        unfold popped_by, overlapped. cbn [flat_map existsb popped_of overlap_of].
        destruct (Z_lt_le_dec (len hist) (Z.of_nat m + c)) as [Hnear|Hfar].
        -- assert (ovl = false) as -> by (destruct ovl; [specialize (Hl eq_refl); lia | reflexivity]).
           destruct (pop_in_sync T dflt c _ _ hist hk (Z.of_nat m) Hc HR HA ltac:(lia))
             as [(_ & E) | (Hlt & h' & E & HA')]; rewrite E; cbn [fst snd orb];
             (split; [split; [exact HR|] | intros Habs; discriminate Habs]).
           ++ exists m. split; [exact HA|]. split; [exact Hm|].
              intros Habs; discriminate Habs.
           ++ exists (S m). replace (Z.of_nat (S m)) with (Z.of_nat m + 1) by lia.
              split; [exact HA'|]. split; [lia|]. intros Habs; discriminate Habs.
        -- destruct (pop_lapped T dflt c _ _ hist hk (Z.of_nat m) Hc HR HA Hfar Hbig)
             as [(_ & E) | (_ & E)]; rewrite E; cbn [fst snd];
             rewrite ?Nat.eqb_refl, ?app_nil_r.
           ++ rewrite orb_false_r. split; [|reflexivity].
              split; [exact HR|]. exists m. split; [exact HA|]. split; [exact Hm|].
              exact Hl.
           ++ cbn [orb]. rewrite orb_true_r. split; [|reflexivity].
              split; [exact HR|]. exists m. split; [exact HA|]. split; [exact Hm|].
              intros _. exact Hfar.
      * destruct (popped_by_other T i k (fst (SPMCConsumer.pop dflt (queue s) hk)) Nk)
          as [-> ->].
        rewrite orb_false_r. split; [|reflexivity].
        split; cbn [queue producer consumers]; [exact HR|].
        rewrite nth_error_upd_other by exact Nk. exact HL.
    + rewrite (step_pop_nobody T dflt k s Ek). cbn [fst snd].
      change (pushed (@nil (event T))) with (@nil T).
      change (popped_by i (@nil (event T))) with (@nil T).
      change (overlapped i (@nil (event T))) with false.
      rewrite app_nil_r, orb_false_r. split; [split; assumption | reflexivity].
  - rewrite step_get. cbn [fst snd].
    change (pushed [Created (length (consumers s))]) with (@nil T).
    change (popped_by i [Created (length (consumers s))]) with (@nil T).
    change (overlapped i [Created (length (consumers s))]) with false.
    rewrite app_nil_r, orb_false_r. split; [|reflexivity].
    split; cbn [queue producer consumers]; [exact HR|].
    destruct (nth_error (consumers s) i) as [h|] eqn:Ei.
    + rewrite nth_error_app1 by (apply nth_error_Some; congruence).
      rewrite Ei. exact HL.
    + apply nth_error_None in Ei. subst ovl.
      destruct (Nat.eq_dec i (length (consumers s))) as [->|Ni].
      * rewrite nth_error_app2, Nat.sub_diag by lia. cbn [nth_error].
        exists O. split.
        -- apply getConsumer_at; [lia|]. apply (ring_cap _ _ _ _ _ _ HR).
        -- split; [lia | intros Habs; discriminate Habs].
      * rewrite nth_error_app2 by lia.
        destruct (i - length (consumers s))%nat as [|d] eqn:Ed; [lia|].
        cbn [nth_error]. destruct d; cbn [nth_error]; auto.
Qed.

Lemma lagging_run (c : Z) (i : nat) (ops : list (op T)) :
  good c -> forall (s : state T) (hist : list T) (ovl : bool),
  Lagging dflt c s hist i ovl ->
  len (hist ++ pushed (fst (run dflt ops s))) < c * 2 ^ 32 ->
  Lagging dflt c (snd (run dflt ops s)) (hist ++ pushed (fst (run dflt ops s))) i
          (ovl || overlapped i (fst (run dflt ops s))) /\
  (ovl = true -> popped_by i (fst (run dflt ops s)) = []).
Proof.
  intros Hc. induction ops as [|o ops IH]; intros s hist ovl HL Hbig.
  - cbn [run fst snd].
    change (pushed (@nil (event T))) with (@nil T).
    change (popped_by i (@nil (event T))) with (@nil T).
    change (overlapped i (@nil (event T))) with false.
    rewrite app_nil_r, orb_false_r. auto.
  - rewrite run_cons in *. cbn [fst snd] in *.
    rewrite pushed_app, popped_by_app, overlapped_app in *.
    rewrite app_assoc in Hbig.
    destruct (lagging_step c i o s hist ovl Hc HL) as [HL' Hn'].
    { rewrite length_app in Hbig. lia. }
    destruct (IH _ _ _ HL' Hbig) as [HL'' Hn''].
    rewrite app_assoc, orb_assoc. split; [exact HL''|].
    intros Ho. rewrite (Hn' Ho), Hn''; [reflexivity|]. rewrite Ho. reflexivity.
Qed.

End SPMC_lag.

Section SPMC_lockstep.
Import Word Capacity SPMCSystem.
Variable T : Type.
Variable dflt : T.

Local Abbreviation len l := (Z.of_nat (length l)).

Lemma run_app (ops ops' : list (op T)) (s : state T) :
  run dflt (ops ++ ops') s =
  (fst (run dflt ops s) ++ fst (run dflt ops' (snd (run dflt ops s))),
   snd (run dflt ops' (snd (run dflt ops s)))).
Proof.
  revert s. induction ops as [|o ops IH]; intros s.
  - cbn [app run fst snd]. destruct (run dflt ops' s); reflexivity.
  - rewrite <- app_comm_cons, !run_cons, IH. cbn [fst snd].
    rewrite app_assoc. reflexivity.
Qed.

(** Creating handles: every new handle stands at position 0, nothing is
    pushed and nothing popped. *)
Lemma run_get_consumers (k : nat) (s : state T) :
  queue (snd (run dflt (repeat GetConsumer k) s)) = queue s /\
  producer (snd (run dflt (repeat GetConsumer k) s)) = producer s /\
  consumers (snd (run dflt (repeat GetConsumer k) s)) =
    consumers s ++ repeat (SPMCConsumer.getConsumer (queue s)) k /\
  pushed (fst (run dflt (repeat GetConsumer k) s)) = [] /\
  forall i : nat,
    popped_by i (fst (run dflt (repeat GetConsumer k) s)) = [] /\
    overlapped i (fst (run dflt (repeat GetConsumer k) s)) = false.
Proof.
  revert s. induction k as [|k IH]; intros s.
  - cbn [repeat run fst snd]. rewrite app_nil_r. repeat split.
  - cbn [repeat]. rewrite run_cons, step_get. cbn [fst snd].
    destruct (IH (mkState (queue s) (producer s)
                          (consumers s ++ [SPMCConsumer.getConsumer (queue s)])))
      as (Eq & Ep & Ec & Eh & Ei).
    cbn [queue producer consumers] in *.
    rewrite Eq, Ep, Ec, <- app_assoc.
    split; [reflexivity|]. split; [reflexivity|]. split; [reflexivity|].
    split; [rewrite pushed_app, Eh; reflexivity|].
    intros i. rewrite popped_by_app, overlapped_app.
    rewrite (proj1 (Ei i)), (proj2 (Ei i)). split; reflexivity.
Qed.

(** A handle standing where the producer stands, popping after every push,
    receives every value -- with no bound on how many. *)
Lemma lockstep_run (c : Z) (i : nat) (vs : list T) :
  good c -> forall (s : state T) (hist : list T) (h : SPMCConsumer.t),
  RingInv dflt c (queue s) (producer s) hist ->
  nth_error (consumers s) i = Some h ->
  At c h (len hist) ->
  popped_by i (fst (run dflt (flat_map (fun v => [Push v; Pop i]) vs) s)) = vs /\
  overlapped i (fst (run dflt (flat_map (fun v => [Push v; Pop i]) vs) s)) = false.
Proof.
  intros Hc. pose proof (good_range c Hc) as Hr.
  induction vs as [|v vs IH]; intros s hist h HR Hh HA.
  - cbn [flat_map run fst]. split; reflexivity.
  - cbn [flat_map app]. rewrite run_cons, step_push. cbn [fst snd].
    set (s1 := mkState (snd (fst (SPMCProducer.push v (queue s) (producer s))))
                       (snd (SPMCProducer.push v (queue s) (producer s)))
                       (consumers s)).
    pose proof (ring_push T dflt c _ _ hist v Hc HR) as HR1.
    assert (nth_error (consumers s1) i = Some h) as Hh1 by exact Hh.
    rewrite run_cons, (step_pop T dflt i s1 h Hh1). cbn [fst snd].
    assert (len (hist ++ [v]) = len hist + 1) as El
      by (rewrite length_app; simpl; lia).
    destruct (pop_in_sync T dflt c (queue s1) (producer s1) (hist ++ [v]) h (len hist)
                Hc HR1 HA ltac:(lia)) as [(E & _) | (_ & h' & E & HA')]; [lia|].
    rewrite E. cbn [fst snd]. rewrite Nat2Z.id, nth_middle.
    set (s2 := mkState (queue s1) (producer s1) (upd (consumers s1) i h')).
    assert (nth_error (consumers s2) i = Some h') as Hh2.
    { apply nth_error_upd_same. apply nth_error_Some. congruence. }
    rewrite <- El in HA'.
    destruct (IH s2 (hist ++ [v]) h' HR1 Hh2 HA') as [Ep Eo].
    rewrite !popped_by_app, !overlapped_app, Ep, Eo.
    unfold popped_by, overlapped.
    cbn [flat_map existsb popped_of overlap_of app orb]. rewrite Nat.eqb_refl.
    split; reflexivity.
Qed.

End SPMC_lockstep.

(** X1 (SPMC, no false alarm).  In a history on a freshly constructed queue
    in which fewer than [capacity * 2^32] values are pushed, let consumer
    [i] have popped [k] values without [Overlapped].  If fewer than
    [k + capacity] values have been pushed, its next pop does not fail: it
    returns false when all [k] pushed values were popped, and the value
    pushed after the [k] it has popped otherwise. *)
Theorem spmc_overlap_is_precise (T : Type) (dflt : T) (c : Z) (q0 : SPMC.SPMCQ T)
    (ops : list (SPMCSystem.op T)) (i : nat) (h : SPMCConsumer.t) :
  0 <= c < 2 ^ 64 ->
  SPMC.make dflt c = Capacity.Constructed q0 ->
  let es := fst (SPMCSystem.run dflt ops (SPMCSystem.init q0)) in
  let s := snd (SPMCSystem.run dflt ops (SPMCSystem.init q0)) in
  let k := length (SPMCSystem.popped_by i es) in
  Z.of_nat (length (SPMCSystem.pushed es)) < c * 2 ^ 32 ->
  nth_error (SPMCSystem.consumers s) i = Some h ->
  SPMCSystem.overlapped i es = false ->
  Z.of_nat (length (SPMCSystem.pushed es)) < Z.of_nat k + c ->
  fst (SPMCConsumer.pop dflt (SPMCSystem.queue s) h) =
    (if Nat.eqb k (length (SPMCSystem.pushed es))
     then SPMCConsumer.Empty
     else SPMCConsumer.Popped (nth k (SPMCSystem.pushed es) dflt)).
Proof.
  intros Hc Hm es s k Hbig Hh Hov Hnear.
  destruct (follows_reach T dflt c q0 ops i Hc Hm Hbig) as [Hg HF].
  fold es s in HF. rewrite Hov in HF.
  destruct (follows_position T dflt c s _ _ i h HF Hh) as (HR & HA & Hle & _).
  fold k in HA, Hle.
  destruct (pop_in_sync T dflt c _ _ _ h (Z.of_nat k) Hg HR HA ltac:(lia))
    as [(E & P) | (Hlt & h' & P & _)]; rewrite P; cbn [fst].
  - destruct (Nat.eqb_spec k (length (SPMCSystem.pushed es))); [reflexivity | lia].
  - destruct (Nat.eqb_spec k (length (SPMCSystem.pushed es))); [lia|].
    rewrite Nat2Z.id. reflexivity.
Qed.

Lemma spmc_overlap_is_precise_witness :
  let ops := [SPMCSystem.GetConsumer; SPMCSystem.Push 5; SPMCSystem.Pop 0;
              SPMCSystem.Push 6] in
  let q0 := SPMC.mkSPMCQ 2 (repeat (SPMC.entry0 0) 2) 0 0 in
  let es := fst (SPMCSystem.run 0 ops (SPMCSystem.init q0)) in
  let s := snd (SPMCSystem.run 0 ops (SPMCSystem.init q0)) in
  let k := length (SPMCSystem.popped_by 0 es) in
  fst (SPMCConsumer.pop 0 (SPMCSystem.queue s) (SPMCConsumer.mk 2 1 0)) =
    (if Nat.eqb k (length (SPMCSystem.pushed es))
     then SPMCConsumer.Empty
     else SPMCConsumer.Popped (nth k (SPMCSystem.pushed es) 0)).
Proof.
  apply (spmc_overlap_is_precise Z 0 2);
    [lia | vm_compute; reflexivity | vm_compute; reflexivity | vm_compute; reflexivity
     | vm_compute; reflexivity | vm_compute; reflexivity].
Defined.



(** X3 (SPMC, an overlap is permanent).  In a history on a freshly
    constructed queue in which fewer than [capacity * 2^32] values are
    pushed: once a pop of consumer [i] has failed with [Overlapped], none
    of its later pops hands out a value, whatever is pushed afterwards --
    the handle has to be replaced or resynchronised. *)
Theorem spmc_overlapped_is_permanent (T : Type) (dflt : T) (c : Z) (q0 : SPMC.SPMCQ T)
    (ops1 ops2 : list (SPMCSystem.op T)) (i : nat) :
  0 <= c < 2 ^ 64 ->
  SPMC.make dflt c = Capacity.Constructed q0 ->
  let r1 := SPMCSystem.run dflt ops1 (SPMCSystem.init q0) in
  let r2 := SPMCSystem.run dflt ops2 (snd r1) in
  Z.of_nat (length (SPMCSystem.pushed (fst r1 ++ fst r2))) < c * 2 ^ 32 ->
  SPMCSystem.overlapped i (fst r1) = true ->
  SPMCSystem.popped_by i (fst r2) = [].
Proof.
  intros Hc Hm r1 r2 Hbig Hov.
  destruct (ring_make T dflt c q0 Hc Hm) as [Hg HR].
  rewrite pushed_app in Hbig.
  assert (SPMCLag.Lagging dflt c (SPMCSystem.init q0) [] i false) as HL
    by (split; [exact HR | destruct i; simpl; auto]).
  destruct (lagging_run T dflt c i ops1 Hg _ _ _ HL) as [HL1 _].
  { cbn [app]. fold r1. rewrite length_app in Hbig. lia. }
  fold r1 in HL1. cbn [app orb] in HL1. rewrite Hov in HL1.
  destruct (lagging_run T dflt c i ops2 Hg _ _ _ HL1 Hbig) as [_ Hnone].
  apply Hnone. reflexivity.
Qed.

Lemma spmc_overlapped_is_permanent_witness :
  let q0 := SPMC.mkSPMCQ 2 (repeat (SPMC.entry0 0) 2) 0 0 in
  let r1 := SPMCSystem.run 0 [SPMCSystem.GetConsumer; SPMCSystem.Push 1;
                              SPMCSystem.Push 2; SPMCSystem.Push 3; SPMCSystem.Pop 0]
                           (SPMCSystem.init q0) in
  let r2 := SPMCSystem.run 0 [SPMCSystem.Push 4; SPMCSystem.Pop 0; SPMCSystem.Push 5;
                              SPMCSystem.Pop 0] (snd r1) in
  SPMCSystem.popped_by 0 (fst r2) = [].
Proof.
  apply (spmc_overlapped_is_permanent Z 0 2 _ _ _ 0%nat);
    [lia | vm_compute; reflexivity | vm_compute; reflexivity | vm_compute; reflexivity].
Defined.



(** X5 (SPMC, single-thread round trip).  On a freshly constructed queue
    with [k] consumer handles, let the producer push any values -- any
    number of them, also beyond [2^32] laps -- while consumer [i] pops
    after every push, as the single-thread round-trip benchmark does.  No
    pop fails with [Overlapped], and the consumer receives exactly the
    values pushed, in order. *)
Theorem spmc_lockstep_round_trip (T : Type) (dflt : T) (c : Z) (q0 : SPMC.SPMCQ T)
    (k i : nat) (vs : list T) :
  0 <= c < 2 ^ 64 ->
  SPMC.make dflt c = Capacity.Constructed q0 ->
  (i < k)%nat ->
  let ops := repeat SPMCSystem.GetConsumer k ++
             flat_map (fun v => [SPMCSystem.Push v; SPMCSystem.Pop i]) vs in
  let es := fst (SPMCSystem.run dflt ops (SPMCSystem.init q0)) in
  SPMCSystem.popped_by i es = vs /\
  SPMCSystem.overlapped i es = false.
Proof.
  intros Hc Hm Hi ops es.
  destruct (ring_make T dflt c q0 Hc Hm) as [Hg HR].
  pose proof (good_range c Hg) as Hr.
  unfold es, ops. rewrite run_app. cbn [fst].
  destruct (run_get_consumers T dflt k (SPMCSystem.init q0))
    as (Eq & Ep & Ec & Eh & Ei).
  set (s1 := snd (SPMCSystem.run dflt (repeat SPMCSystem.GetConsumer k)
                    (SPMCSystem.init q0))) in *.
  cbn [SPMCSystem.init SPMCSystem.queue SPMCSystem.producer SPMCSystem.consumers app]
    in Eq, Ep, Ec.
  assert (nth_error (SPMCSystem.consumers s1) i =
          Some (SPMCConsumer.getConsumer q0)) as Hh.
  { rewrite Ec. rewrite (nth_error_nth' _ (SPMCConsumer.getConsumer q0))
      by (rewrite repeat_length; exact Hi).
    rewrite nth_repeat. reflexivity. }
  assert (SPMCSystem.RingInv dflt c (SPMCSystem.queue s1) (SPMCSystem.producer s1) [])
    as HR1 by (rewrite Eq, Ep; exact HR).
  assert (SPMCSystem.At c (SPMCConsumer.getConsumer q0) (Z.of_nat (length (@nil T))))
    as HA.
  { apply getConsumer_at; [lia|]. apply (SPMCSystem.ring_cap _ _ _ _ _ _ HR). }
  destruct (lockstep_run T dflt c i vs Hg s1 [] _ HR1 Hh HA) as [Ep' Eo'].
  rewrite popped_by_app, overlapped_app, Ep', Eo'.
  rewrite (proj1 (Ei i)), (proj2 (Ei i)). split; reflexivity.
Qed.

Lemma spmc_lockstep_round_trip_witness :
  let q0 := SPMC.mkSPMCQ 2 (repeat (SPMC.entry0 0) 2) 0 0 in
  let ops := repeat SPMCSystem.GetConsumer 2 ++
             flat_map (fun v => [SPMCSystem.Push v; SPMCSystem.Pop 1]) [3; 1; 4; 1; 5] in
  let es := fst (SPMCSystem.run 0 ops (SPMCSystem.init q0)) in
  SPMCSystem.popped_by 1 es = [3; 1; 4; 1; 5] /\
  SPMCSystem.overlapped 1 es = false.
Proof.
  apply (spmc_lockstep_round_trip Z 0 2 _ 2%nat 1%nat);
    [lia | vm_compute; reflexivity | lia].
Defined.

(* ================================================================== *)
(** * Further properties of the SPSC and MPSC queues                    *)
(* ================================================================== *)

Section SPSC_more.
Import Word Capacity History SPSC.
Variable T : Type.
Variable dflt : T.

Local Abbreviation len l := (Z.of_nat (length l)).

(** Pushing a list of values: as many are accepted as there are free
    slots, and they are the first ones. *)
Lemma spsc_fill (c : Z) (vs : list T) :
  good c -> forall (q : SPSCQ T) (acc pop : list T),
  Inv dflt c q acc pop ->
  accepted (fst (run dflt (map Push vs) q)) =
  firstn (Z.to_nat (len pop + c - 1 - len acc)) vs.
Proof.
  intros Hc. induction vs as [|v vs IH]; intros q acc pop HI.
  - simpl. rewrite firstn_nil. reflexivity.
  - pose proof (inv_bound HI) as Hb.
    cbn [map run step].
    destruct (spsc_push_inv T dflt c q acc pop v Hc HI)
      as [(E & P) | (E & q' & P & HI')]; rewrite P.
    + specialize (IH q acc pop HI).
      destruct (run dflt (map Push vs) q) as [es q'']. cbn [fst] in *.
      unfold accepted in *. cbn [flat_map History.accepted_of app].
      rewrite IH. replace (len pop + c - 1 - len acc) with 0 by lia.
      reflexivity.
    + specialize (IH q' _ pop HI').
      destruct (run dflt (map Push vs) q') as [es q'']. cbn [fst] in *.
      unfold accepted in *. cbn [flat_map History.accepted_of app].
      rewrite IH. rewrite length_app. cbn [length].
      replace (Z.to_nat (len pop + c - 1 - len acc))
        with (S (Z.to_nat (len pop + c - 1 - Z.of_nat (length acc + 1)))) by lia.
      reflexivity.
Qed.

End SPSC_more.

(** X6 (SPSC, usable capacity).  Pushing any list of values into a freshly
    constructed queue of capacity [c], with no pop in between, accepts
    exactly the first [c - 1] of them (all of them when there are fewer)
    and refuses the rest: one slot is never used. *)
Theorem spsc_usable_capacity (T : Type) (dflt : T) (c : Z) (q0 : SPSC.SPSCQ T)
    (vs : list T) :
  0 <= c < 2 ^ 64 ->
  SPSC.make dflt c = Capacity.Constructed q0 ->
  History.accepted (fst (SPSC.run dflt (map History.Push vs) q0)) =
  firstn (Z.to_nat (c - 1)) vs.
Proof.
  intros Hc Hm. destruct (spsc_make_inv T dflt c q0 Hc Hm) as [Hg HI].
  rewrite (spsc_fill T dflt c vs Hg q0 [] [] HI). f_equal. simpl. lia.
Qed.

Lemma spsc_usable_capacity_witness :
  History.accepted
    (fst (SPSC.run 0 (map History.Push [0; 1; 2; 3; 4]) (SPSC.mkSPSCQ 4 [0; 0; 0; 0] 0 0))) =
  firstn (Z.to_nat (4 - 1)) [0; 1; 2; 3; 4].
Proof.
  apply (spsc_usable_capacity Z 0 4); [lia | vm_compute; reflexivity].
Defined.

Section MPSC_more.
Import Word Capacity History MPSC.
Variable T : Type.
Variable dflt : T.

Local Abbreviation len l := (Z.of_nat (length l)).

Lemma mpsc_fill (c : Z) (fuel : nat) (vs : list T) :
  good c -> forall (q : MPSCQ T) (acc pop : list T),
  Inv dflt c q acc pop ->
  exists es q',
    run dflt (S fuel) (map Push vs) q = Some (es, q') /\
    accepted es = firstn (Z.to_nat (len pop + c - len acc)) vs.
Proof.
  intros Hc. induction vs as [|v vs IH]; intros q acc pop HI.
  - exists [], q. split; [reflexivity|]. rewrite firstn_nil. reflexivity.
  - pose proof (inv_bound HI) as Hb.
    cbn [map]. unfold run; fold (run dflt (S fuel)). unfold step at 1.
    destruct (mpsc_push_inv T dflt c q acc pop v fuel Hc HI)
      as [(E & P) | (E & q' & P & HI')]; rewrite P.
    + destruct (IH q acc pop HI) as (es & q'' & R & Ea). rewrite R.
      exists (Pushed v false :: es), q''. split; [reflexivity|].
      unfold accepted in *. cbn [flat_map History.accepted_of app].
      rewrite Ea. replace (len pop + c - len acc) with 0 by lia. reflexivity.
    + destruct (IH q' _ pop HI') as (es & q'' & R & Ea). rewrite R.
      exists (Pushed v true :: es), q''. split; [reflexivity|].
      unfold accepted in *. cbn [flat_map History.accepted_of app].
      rewrite Ea. rewrite length_app. cbn [length].
      replace (Z.to_nat (len pop + c - len acc))
        with (S (Z.to_nat (len pop + c - Z.of_nat (length acc + 1)))) by lia.
      reflexivity.
Qed.

Lemma mpsc_empty_inv (c : Z) (q : MPSCQ T) (acc pop : list T) :
  good c -> Inv dflt c q acc pop -> (empty q = true <-> len acc = len pop).
Proof.
  intros Hc HI. pose proof (mpsc_size_inv T dflt c q acc pop Hc HI) as Hs.
  unfold empty. rewrite Hs, Z.eqb_eq. lia.
Qed.

End MPSC_more.

(** X7 (MPSC, usable capacity).  Pushing any list of values into a freshly
    constructed queue of capacity [c], from one thread and with no pop in
    between, accepts exactly the first [c] of them and refuses the rest:
    unlike the SPSC ring, every slot is used. *)
Theorem mpsc_usable_capacity (T : Type) (dflt : T) (c : Z) (q0 : MPSC.MPSCQ T)
    (vs : list T) (fuel : nat) :
  0 <= c < 2 ^ 64 ->
  MPSC.make dflt c = Capacity.Constructed q0 ->
  exists (es : list (History.event T)) (q : MPSC.MPSCQ T),
    MPSC.run dflt (S fuel) (map History.Push vs) q0 = Some (es, q) /\
    History.accepted es = firstn (Z.to_nat c) vs.
Proof.
  intros Hc Hm. destruct (mpsc_make_inv T dflt c q0 Hc Hm) as [Hg HI].
  destruct (mpsc_fill T dflt c fuel vs Hg q0 [] [] HI) as (es & q & R & Ea).
  exists es, q. split; [exact R|]. rewrite Ea. f_equal. simpl. lia.
Qed.

Lemma mpsc_usable_capacity_witness :
  exists (es : list (History.event Z)) (q : MPSC.MPSCQ Z),
    MPSC.run 0 1 (map History.Push [7; 8; 9])
      (MPSC.mkMPSCQ 2 1 [MPSC.mkCell 0 0; MPSC.mkCell 1 0] 0 0) = Some (es, q) /\
    History.accepted es = firstn (Z.to_nat 2) [7; 8; 9].
Proof.
  apply (mpsc_usable_capacity Z 0 2); [lia | vm_compute; reflexivity].
Defined.

(** X8 (MPSC, pop on an empty queue).  In every state reached from a
    freshly constructed queue by a history of pushes and pops, [pop]
    returns false exactly when [empty()] holds, that is when [head_] equals
    [tail_], and then leaves the queue as it was; [empty()] and [full()]
    never hold together. *)
Theorem mpsc_pop_fails_iff_empty (T : Type) (dflt : T) (c : Z) (q0 : MPSC.MPSCQ T)
    (ops : list (History.op T)) (fuel : nat) (es : list (History.event T))
    (q : MPSC.MPSCQ T) :
  0 <= c < 2 ^ 64 ->
  MPSC.make dflt c = Capacity.Constructed q0 ->
  MPSC.run dflt (S fuel) ops q0 = Some (es, q) ->
  (fst (MPSC.pop dflt q) = None <-> MPSC.empty q = true) /\
  (MPSC.empty q = true <-> MPSC.head_ q = MPSC.tail_ q) /\
  (fst (MPSC.pop dflt q) = None -> snd (MPSC.pop dflt q) = q) /\
  (MPSC.empty q = true -> MPSC.full q = false).
Proof.
  intros Hc Hm R.
  destruct (mpsc_reachable_inv T dflt c q0 fuel ops Hc Hm)
    as (Hg & es' & q' & R' & HI).
  rewrite R in R'. injection R' as <- <-.
  pose proof (good_range c Hg) as Hr.
  pose proof (mpsc_empty_inv T dflt c q _ _ Hg HI) as He.
  pose proof (mpsc_full_inv T dflt c q _ _ Hg HI) as Hf.
  pose proof (MPSC.inv_bound HI) as Hb.
  split; [|split; [|split]].
  - rewrite He.
    destruct (mpsc_pop_inv T dflt c q _ _ Hg HI)
      as [(E & P) | (E & q' & P & _)]; rewrite P; cbn [fst].
    + split; auto.
    + split; [discriminate | lia].
  - unfold MPSC.empty, MPSC.size. rewrite Z.eqb_eq.
    destruct HI as [_ _ _ Hh Ht _ _ _ _].
    pose proof (wrap_range (Z.of_nat (length (History.accepted es)))) as B1.
    pose proof (wrap_range (Z.of_nat (length (History.popped es)))) as B2.
    rewrite <- Hh in B1. rewrite <- Ht in B2.
    split.
    + intros E.
      destruct (Z_lt_le_dec (MPSC.head_ q) (MPSC.tail_ q)) as [Hlt|Hge].
      * replace (Word.wrap (MPSC.head_ q - MPSC.tail_ q))
          with (MPSC.head_ q - MPSC.tail_ q + 2 ^ 64) in E; [lia|].
        unfold Word.wrap, Word.size_bits.
        apply (Zmod_unique _ (2 ^ 64) (-1)); lia.
      * rewrite wrap_small in E by lia. lia.
    + intros ->. rewrite Z.sub_diag. reflexivity.
  - destruct (mpsc_pop_inv T dflt c q _ _ Hg HI)
      as [(E & P) | (E & q' & P & _)]; rewrite P; cbn [fst snd];
      [reflexivity | discriminate].
  - intros E. apply He in E. apply not_true_is_false. intros F.
    apply Hf in F. lia.
Qed.

Lemma mpsc_pop_fails_iff_empty_witness :
  let q := MPSC.mkMPSCQ 2 1 [MPSC.mkCell 2 5; MPSC.mkCell 1 0] 1 1 in
  (fst (MPSC.pop 0 q) = None <-> MPSC.empty q = true) /\
  (MPSC.empty q = true <-> MPSC.head_ q = MPSC.tail_ q) /\
  (fst (MPSC.pop 0 q) = None -> snd (MPSC.pop 0 q) = q) /\
  (MPSC.empty q = true -> MPSC.full q = false).
Proof.
  apply (mpsc_pop_fails_iff_empty Z 0 2
           (MPSC.mkMPSCQ 2 1 [MPSC.mkCell 0 0; MPSC.mkCell 1 0] 0 0)
           [History.Push 5; History.Pop] 0
           [History.Pushed 5 true; History.Popped (Some 5)]);
    [lia | vm_compute; reflexivity | vm_compute; reflexivity].
Defined.

(* ================================================================== *)
(** * The benchmark loops on the SPSC queue                             *)
(* ================================================================== *)

Section Callers.
Import Word Capacity SPSC.

Local Abbreviation len l := (Z.of_nat (length l)).

(** The spinning push of the wrapper returns at its first attempt when a
    slot is free. *)
Lemma wrapper_push_free (c : Z) (q : SPSCQ Z) (acc pop : list Z) (v : Z) (fuel : nat) :
  good c -> Inv 0 c q acc pop -> len acc < len pop + c - 1 ->
  exists q', RoundTrip.wrapper_push (S fuel) v q = Some q' /\
             Inv 0 c q' (acc ++ [v]) pop.
Proof.
  intros Hc HI Hfree. cbn [RoundTrip.wrapper_push].
  destruct (spsc_push_inv Z 0 c q acc pop v Hc HI)
    as [(E & _) | (_ & q' & P & HI')]; [lia|].
  rewrite P. exists q'. auto.
Qed.

Lemma roundtrip_finishes (c : Z) (fuel n : nat) :
  good c -> forall (iteration : Z) (q : SPSCQ Z) (acc : list Z),
  0 <= iteration < 2 ^ 64 -> Inv 0 c q acc acc ->
  exists q', RoundTrip.roundtrip_single_thread (S fuel) n iteration q =
               RoundTrip.Finished (wrap (iteration + Z.of_nat n)) q' /\
             empty q' = true.
Proof.
  intros Hc. pose proof (good_range c Hc) as Hr.
  induction n as [|n IH]; intros it q acc Hit HI.
  - exists q. cbn [RoundTrip.roundtrip_single_thread].
    rewrite Z.add_0_r, wrap_small by exact Hit. split; [reflexivity|].
    apply (spsc_empty_inv Z 0 c q acc acc Hc HI). reflexivity.
  - unfold RoundTrip.roundtrip_single_thread;
      fold (RoundTrip.roundtrip_single_thread (S fuel)).
    destruct (wrapper_push_free c q acc acc it fuel Hc HI ltac:(lia))
      as (q1 & P & HI1).
    rewrite P.
    destruct (spsc_pop_inv Z 0 c q1 _ _ Hc HI1) as [(E & _) | (_ & q2 & P2 & HI2)].
    { rewrite length_app in E. simpl in E. lia. }
    rewrite P2, nth_middle, Z.eqb_refl. cbn [negb].
    rewrite nth_middle in HI2.
    destruct (IH (wrap (it + 1)) q2 _ (wrap_range _) HI2) as (q' & R & He).
    exists q'. rewrite R. split; [|exact He].
    rewrite wrap_wrap_add. do 2 f_equal. lia.
Qed.

Lemma writer_counts (c : Z) (n : nat) :
  good c -> forall (i : Z) (q : SPSCQ Z) (acc pop : list Z) (s : Z),
  0 <= s < 2 ^ 64 -> Inv 0 c q acc pop ->
  exists acc',
    Inv 0 c (fst (Throughput.writer_iterations n i q s)) acc' pop /\
    len acc' = len acc + Z.min (Z.of_nat n) (len pop + c - 1 - len acc) /\
    snd (Throughput.writer_iterations n i q s) =
      wrap (s + Z.min (Z.of_nat n) (len pop + c - 1 - len acc)).
Proof.
  intros Hc. induction n as [|n IH]; intros i q acc pop s Hs HI;
    pose proof (inv_bound HI) as Hb.
  - exists acc. cbn [Throughput.writer_iterations fst snd].
    replace (Z.min (Z.of_nat 0) (len pop + c - 1 - len acc)) with 0 by lia.
    rewrite !Z.add_0_r, wrap_small by exact Hs. auto.
  - cbn [Throughput.writer_iterations].
    destruct (spsc_push_inv Z 0 c q acc pop i Hc HI)
      as [(E & P) | (E & q' & P & HI')]; rewrite P.
    + destruct (IH (i + 1) q acc pop s Hs HI) as (acc' & HI' & El & Es).
      exists acc'. split; [exact HI'|].
      rewrite El, Es. split; [lia | f_equal; lia].
    + destruct (IH (i + 1) q' _ pop (wrap (s + 1)) (wrap_range _) HI')
        as (acc' & HI'' & El & Es).
      exists acc'. split; [exact HI''|].
      rewrite El, Es, wrap_wrap_add, length_app. cbn [length].
      split; [|f_equal]; lia.
Qed.

Lemma reader_counts (c : Z) (n : nat) :
  good c -> forall (q : SPSCQ Z) (acc pop : list Z) (s : Z),
  0 <= s < 2 ^ 64 -> Inv 0 c q acc pop ->
  exists pop',
    Inv 0 c (fst (Throughput.reader_iterations n q s)) acc pop' /\
    len pop' = len pop + Z.min (Z.of_nat n) (len acc - len pop) /\
    snd (Throughput.reader_iterations n q s) =
      wrap (s + Z.min (Z.of_nat n) (len acc - len pop)).
Proof.
  intros Hc. induction n as [|n IH]; intros q acc pop s Hs HI;
    pose proof (inv_bound HI) as Hb.
  - exists pop. cbn [Throughput.reader_iterations fst snd].
    replace (Z.min (Z.of_nat 0) (len acc - len pop)) with 0 by lia.
    rewrite !Z.add_0_r, wrap_small by exact Hs. auto.
  - cbn [Throughput.reader_iterations].
    destruct (spsc_pop_inv Z 0 c q acc pop Hc HI)
      as [(E & P) | (E & q' & P & HI')]; rewrite P.
    + destruct (IH q acc pop s Hs HI) as (pop' & HI' & El & Es).
      exists pop'. split; [exact HI'|].
      rewrite El, Es. split; [lia | f_equal; lia].
    + destruct (IH q' acc _ (wrap (s + 1)) (wrap_range _) HI')
        as (pop' & HI'' & El & Es).
      exists pop'. split; [exact HI''|].
      rewrite El, Es, wrap_wrap_add, length_app. cbn [length].
      split; [|f_equal]; lia.
Qed.

End Callers.

(** X9 (single-thread round trip on SPSC).  On a freshly constructed
    [SPSCQ<size_t>], the body of [roundtrip_single_thread] runs any number
    [n] of iterations to the end: the spinning [push] of the wrapper
    returns at its first attempt, every pop hands back the value just
    pushed, so "oops" is never thrown, and the queue is empty afterwards. *)
Theorem spsc_round_trip_never_throws (c : Z) (q0 : SPSC.SPSCQ Z) (fuel n : nat) :
  0 <= c < 2 ^ 64 ->
  SPSC.make 0 c = Capacity.Constructed q0 ->
  exists q : SPSC.SPSCQ Z,
    RoundTrip.roundtrip_single_thread (S fuel) n 0 q0 =
      RoundTrip.Finished (Word.wrap (Z.of_nat n)) q /\
    SPSC.empty q = true.
Proof.
  intros Hc Hm. destruct (spsc_make_inv Z 0 c q0 Hc Hm) as [Hg HI].
  destruct (roundtrip_finishes c fuel n Hg 0 q0 [] ltac:(lia) HI) as (q & R & He).
  exists q. split; [exact R | exact He].
Qed.

Lemma spsc_round_trip_never_throws_witness :
  exists q : SPSC.SPSCQ Z,
    RoundTrip.roundtrip_single_thread 1 5 0 (SPSC.mkSPSCQ 2 [0; 0] 0 0) =
      RoundTrip.Finished (Word.wrap (Z.of_nat 5)) q /\
    SPSC.empty q = true.
Proof.
  apply (spsc_round_trip_never_throws 2); [lia | vm_compute; reflexivity].
Defined.

(** X10 (throughput loops, one after the other).  On a freshly constructed
    [SPSCQ<int>] of capacity [c], [writerLoop] with [nIter] iterations run
    to its end counts [min(nIter, c - 1)] successes (none for a
    non-positive [nIter]); [readerLoop] with the same [nIter], started
    afterwards, counts as many and leaves the queue empty. *)
Theorem throughput_loops_in_sequence (c : Z) (q0 : SPSC.SPSCQ Z) (nIter : Z) :
  0 <= c < 2 ^ 64 ->
  SPSC.make 0 c = Capacity.Constructed q0 ->
  nIter <= 2 ^ 31 - 1 ->
  let w := Throughput.writerLoop q0 nIter 0 in
  let r := Throughput.readerLoop (fst w) nIter 0 in
  snd w = Z.min (Z.max 0 nIter) (c - 1) /\
  snd r = snd w /\
  SPSC.empty (fst r) = true.
Proof.
  intros Hc Hm Hn w r. destruct (spsc_make_inv Z 0 c q0 Hc Hm) as [Hg HI].
  pose proof (good_range c Hg) as Hr.
  destruct (writer_counts c (Z.to_nat nIter) Hg 0 q0 [] [] 0 ltac:(lia) HI)
    as (acc & HI1 & El & Es).
  fold (Throughput.writerLoop q0 nIter 0) in HI1, Es. fold w in HI1, Es.
  cbn [length] in El, Es.
  destruct (reader_counts c (Z.to_nat nIter) Hg (fst w) acc [] 0 ltac:(lia) HI1)
    as (pop & HI2 & El2 & Es2).
  fold (Throughput.readerLoop (fst w) nIter 0) in HI2, Es2. fold r in HI2, Es2.
  cbn [length] in El2, Es2.
  assert (snd w = Z.min (Z.max 0 nIter) (c - 1)) as Ew.
  { rewrite Es. rewrite wrap_small by lia. lia. }
  split; [exact Ew|]. split.
  - rewrite Es2, Ew. rewrite wrap_small by lia. lia.
  - apply (spsc_empty_inv Z 0 c _ _ _ Hg HI2). lia.
Qed.

Lemma throughput_loops_in_sequence_witness :
  let q0 := SPSC.mkSPSCQ 4 [0; 0; 0; 0] 0 0 in
  let w := Throughput.writerLoop q0 6 0 in
  let r := Throughput.readerLoop (fst w) 6 0 in
  snd w = Z.min (Z.max 0 6) (4 - 1) /\
  snd r = snd w /\
  SPSC.empty (fst r) = true.
Proof.
  apply (throughput_loops_in_sequence 4); [lia | vm_compute; reflexivity | lia].
Defined.

(* ================================================================== *)
(** * The parametrised unit test                                        *)
(* ================================================================== *)

Section UnitTestFacts.
Import Word Capacity SPSC.

Local Abbreviation len l := (Z.of_nat (length l)).

Lemma counting_succ (i : Z) (n : nat) :
  UnitTest.counting i (S n) = i :: UnitTest.counting (i + 1) n.
Proof.
  unfold UnitTest.counting. cbn [seq map]. rewrite Z.add_0_r. f_equal.
  rewrite <- seq_shift, map_map. apply map_ext. intros k. lia.
Qed.

Lemma counting_length (i : Z) (n : nat) : length (UnitTest.counting i n) = n.
Proof. unfold UnitTest.counting. rewrite length_map, length_seq. reflexivity. Qed.

Lemma counting_nth (i : Z) (n k : nat) :
  (k < n)%nat -> nth k (UnitTest.counting i n) 0 = i + Z.of_nat k.
Proof.
  intros Hk. unfold UnitTest.counting.
  rewrite (nth_indep _ 0 (i + Z.of_nat 0)) by (rewrite length_map, length_seq; exact Hk).
  rewrite (map_nth (fun k => i + Z.of_nat k)), seq_nth by exact Hk. reflexivity.
Qed.

(** The fill loop gets through when there is room for all its values, and
    stops at an assertion otherwise. *)
Lemma fill_spec (c : Z) (n : nat) :
  good c -> forall (i : Z) (q : SPSCQ Z) (acc pop : list Z),
  Inv 0 c q acc pop ->
  (Z.of_nat n <= len pop + c - 1 - len acc ->
   exists q', UnitTest.fill n i q = Some q' /\
              Inv 0 c q' (acc ++ UnitTest.counting i n) pop) /\
  (len pop + c - 1 - len acc < Z.of_nat n -> UnitTest.fill n i q = None).
Proof.
  intros Hc. induction n as [|n IH]; intros i q acc pop HI;
    pose proof (inv_bound HI) as Hb.
  - split; [|lia]. intros _. exists q. split; [reflexivity|].
    unfold UnitTest.counting. simpl. rewrite app_nil_r. exact HI.
  - cbn [UnitTest.fill].
    destruct (spsc_push_inv Z 0 c q acc pop i Hc HI)
      as [(E & P) | (E & q' & P & HI')]; rewrite P.
    + split; [lia | reflexivity].
    + destruct (IH (i + 1) q' _ pop HI') as [Hroom Hnone].
      rewrite length_app in Hroom, Hnone. cbn [length] in Hroom, Hnone.
      split.
      * intros Hn. destruct Hroom as (q'' & F & HI''); [lia|].
        exists q''. split; [exact F|].
        rewrite counting_succ. rewrite <- app_assoc in HI''. exact HI''.
      * intros Hn. apply Hnone. lia.
Qed.

Lemma good_two_or_more (c : Z) : good c -> c = 2 \/ 4 <= c.
Proof.
  intros (k & Hk & ->). destruct (Z.eq_dec k 1) as [->|N]; [left; reflexivity|].
  right. change 4 with (2 ^ 2). apply Z.pow_le_mono_r; lia.
Qed.

End UnitTestFacts.

(** X11 (the parametrised unit test).  With assertions enabled, on a
    freshly constructed [SPSCQ<int>] of capacity [c], [unitTest(q,
    fillLimit)] passes exactly when [fillLimit = c - 1] and [c >= 4].
    Otherwise it stops: at the [assert(q.push(i))] of the fill loop when
    [fillLimit >= c] (the case of [unitTest(stub, 4)] on [SPSCQ<int>
    stub{4}]), at [assert(q.full())] when [fillLimit < c - 1], and at the
    second pop when [c = 2]. *)
Theorem unit_test_verdict (c : Z) (q0 : SPSC.SPSCQ Z) (fillLimit : Z) :
  0 <= c < 2 ^ 64 ->
  SPSC.make 0 c = Capacity.Constructed q0 ->
  - 2 ^ 31 <= fillLimit < 2 ^ 31 ->
  UnitTest.unitTest q0 fillLimit =
    (if c - 1 <? fillLimit then UnitTest.Aborted 3
     else if fillLimit <? c - 1 then UnitTest.Aborted 4
     else if c <? 4 then UnitTest.Aborted 7
     else UnitTest.Passed).
Proof.
  intros Hc Hm Hint. destruct (spsc_make_inv Z 0 c q0 Hc Hm) as [Hg HI].
  pose proof (good_range c Hg) as Hr.
  unfold UnitTest.unitTest.
  rewrite (proj2 (spsc_empty_inv Z 0 c q0 [] [] Hg HI) eq_refl). cbn [negb].
  assert (SPSC.full q0 = false) as ->.
  { apply not_true_is_false. intros F.
    apply (spsc_full_inv Z 0 c q0 [] [] Hg HI) in F. simpl in F. lia. }
  destruct (fill_spec c (Z.to_nat fillLimit) Hg 0 q0 [] [] HI) as [Hroom Hnone].
  cbn [length app] in Hroom, Hnone.
  destruct (Z.ltb_spec (c - 1) fillLimit) as [Hbig|Hle].
  { rewrite Hnone by lia. reflexivity. }
  destruct Hroom as (q1 & F & HI1); [lia|]. rewrite F.
  set (acc := UnitTest.counting 0 (Z.to_nat fillLimit)) in *.
  assert (Z.of_nat (length acc) = Z.max 0 fillLimit) as Ela
    by (unfold acc; rewrite counting_length; lia).
  pose proof (spsc_full_inv Z 0 c q1 acc [] Hg HI1) as Hf1.
  cbn [length] in Hf1.
  destruct (Z.ltb_spec fillLimit (c - 1)) as [Hlt|Hge].
  { assert (SPSC.full q1 = false) as ->
      by (apply not_true_is_false; intros Ft; apply Hf1 in Ft; lia).
    reflexivity. }
  assert (fillLimit = c - 1) as Efl by lia.
  rewrite (proj2 Hf1) by lia. cbn [negb].
  destruct (spsc_push_inv Z 0 c q1 acc [] 10 Hg HI1)
    as [(_ & P) | (E & _)]; [|cbn [length] in E; lia].
  rewrite P.
  destruct (spsc_pop_inv Z 0 c q1 acc [] Hg HI1) as [(E & _) | (_ & q2 & P2 & HI2)];
    [cbn [length] in E; lia|].
  cbn [length] in P2, HI2. rewrite P2.
  assert (nth 0 acc 0 = 0) as En0
    by (unfold acc; rewrite counting_nth by lia; reflexivity).
  rewrite En0 in *. cbn [app Z.eqb negb] in *.
  destruct (spsc_pop_inv Z 0 c q2 acc [0] Hg HI2) as [(E & P3) | (Hlt & q3 & P3 & HI3)];
    cbn [length] in *; rewrite P3.
  { destruct (Z.ltb_spec c 4); [reflexivity | lia]. }
  destruct (good_two_or_more c Hg) as [->|H4]; [lia|].
  destruct (Z.ltb_spec c 4) as [|_]; [lia|].
  assert (nth 1 acc 0 = 1) as En1
    by (unfold acc; rewrite counting_nth by lia; reflexivity).
  rewrite En1 in *. cbn [app Z.eqb Pos.eqb negb] in *.
  rewrite (spsc_size_inv Z 0 c q3 acc [0; 1] Hg HI3). cbn [length].
  rewrite (wrap_small (fillLimit - 2)) by lia.
  destruct (Z.eqb_spec (Z.of_nat (length acc) - Z.of_nat 2) (fillLimit - 2)); [|lia].
  cbn [negb].
  destruct (spsc_push_inv Z 0 c q3 acc [0; 1] 11 Hg HI3)
    as [(E & _) | (_ & q4 & P4 & HI4)]; [cbn [length] in E; lia|].
  rewrite P4. cbn [negb].
  rewrite (spsc_size_inv Z 0 c q4 _ _ Hg HI4), length_app. cbn [length].
  rewrite (wrap_small (fillLimit - 1)) by lia.
  destruct (Z.eqb_spec (Z.of_nat (length acc + 1) - Z.of_nat 2) (fillLimit - 1));
    [reflexivity | lia].
Qed.

Lemma unit_test_verdict_witness :
  UnitTest.unitTest (SPSC.mkSPSCQ 4 [0; 0; 0; 0] 0 0) 4 =
    (if 4 - 1 <? 4 then UnitTest.Aborted 3
     else if 4 <? 4 - 1 then UnitTest.Aborted 4
     else if 4 <? 4 then UnitTest.Aborted 7
     else UnitTest.Passed).
Proof.
  apply (unit_test_verdict 4); [lia | vm_compute; reflexivity | lia].
Defined.
